(** * Chronicle AI Editor: the generation lifecycle and the streaming render queue

    A shallow embedding of [src/components/Editor.tsx]: the text queue that
    paces generated text into the ProseMirror document ([processQueue],
    [triggerProcessing]), the effect that consumes the fragment producer
    ([runGeneration]) and the handlers of the control surface
    ([handleStartGeneration], [handleNewChat], [clearEditor], the action
    button).  JavaScript strings are [string]s: of the text of the document,
    of the queue and of the fragments only the number and the order of the
    code units matter, one element for each; the prompt, whose characters
    [trim] inspects, is held in UTF-8.  Refs and React state are fields of a
    record threaded through every handler, and the browser and the producer
    act through an explicit list of events. *)

From Stdlib Require Import Ascii String List Bool Arith Lia.
Import ListNotations.

Local Open Scope list_scope.

(** ** JavaScript strings *)

Module Js.

(** [s.slice(from, to)] for non-negative indices: both are clamped to the
    length of [s], and an empty string results when [to <= from]. *)
Definition slice (s : string) (from to : nat) : string :=
  let len := String.length s in
  let from' := Nat.min from len in
  let to' := Nat.min to len in
  substring from' (to' - from') s.

(** [s.slice(from)]: the end index defaults to the length of [s]. *)
Definition sliceFrom (s : string) (from : nat) : string :=
  slice s from (String.length s).

(** [s || undefined]: the empty string is falsy. *)
Definition orUndefined (s : string) : option string :=
  if String.eqb s EmptyString then None else Some s.

(** [v || d] where [v] is [undefined] or a string. *)
Definition orElse (v : option string) (d : string) : string :=
  match v with
  | Some s => if String.eqb s EmptyString then d else s
  | None => d
  end.

(** The concatenation of a list of strings, oldest first. *)
Definition concat (l : list string) : string :=
  fold_right String.append EmptyString l.

(** The characters [trim] strips, WhiteSpace and LineTerminator of
    ECMAScript.  The prompt is the one string whose characters the component
    inspects; it is held in UTF-8, so that each of these characters has its
    encoding: one byte for tab, line feed, vertical tab, form feed, carriage
    return (9 to 13) and space (32); *)
Definition isWhiteSpace (a : ascii) : bool :=
  let n := nat_of_ascii a in
  ((9 <=? n) && (n <=? 13)) || (n =? 32).

(** two bytes for the no-break space U+00A0; *)
Definition isWhiteSpace2 (a b : ascii) : bool :=
  (nat_of_ascii a =? 194) && (nat_of_ascii b =? 160).

(** three bytes for U+1680, U+2000 to U+200A, U+2028, U+2029, U+202F,
    U+205F, U+3000 and U+FEFF. *)
Definition isWhiteSpace3 (a b c : ascii) : bool :=
  let x := nat_of_ascii a in
  let y := nat_of_ascii b in
  let z := nat_of_ascii c in
  ((x =? 225) && (y =? 154) && (z =? 128))
  || ((x =? 226) && (y =? 128)
      && (((128 <=? z) && (z <=? 138)) || (z =? 168) || (z =? 169) || (z =? 175)))
  || ((x =? 226) && (y =? 129) && (z =? 159))
  || ((x =? 227) && (y =? 128) && (z =? 128))
  || ((x =? 239) && (y =? 187) && (z =? 191)).

(** [s.trimStart()] *)
Fixpoint trimStart (s : string) : string :=
  match s with
  | EmptyString => EmptyString
  | String a rest =>
      if isWhiteSpace a then trimStart rest
      else
        match rest with
        | EmptyString => s
        | String b rest2 =>
            if isWhiteSpace2 a b then trimStart rest2
            else
              match rest2 with
              | EmptyString => s
              | String c rest3 =>
                  if isWhiteSpace3 a b c then trimStart rest3 else s
              end
        end
  end.

(** Whether [s] holds nothing but characters that [trim] strips. *)
Fixpoint allWhiteSpace (s : string) : bool :=
  match s with
  | EmptyString => true
  | String a rest =>
      if isWhiteSpace a then allWhiteSpace rest
      else
        match rest with
        | EmptyString => false
        | String b rest2 =>
            if isWhiteSpace2 a b then allWhiteSpace rest2
            else
              match rest2 with
              | EmptyString => false
              | String c rest3 =>
                  if isWhiteSpace3 a b c then allWhiteSpace rest3 else false
              end
        end
  end.

(** [s.trimEnd()]: [s] up to the point from which only stripped
    characters follow. *)
Fixpoint trimEnd (s : string) : string :=
  match s with
  | EmptyString => EmptyString
  | String a rest =>
      if allWhiteSpace s then EmptyString else String a (trimEnd rest)
  end.

(** [s.trim()] *)
Definition trim (s : string) : string := trimEnd (trimStart s).

(** A string in a condition: only the empty string is falsy. *)
Definition truthy (s : string) : bool := negb (String.eqb s EmptyString).

End Js.

(** ** The document sink

    The ProseMirror view is an external collaborator.  Only what the editor
    component reads and writes is kept: the text content of the document,
    split at the cursor (the selection is empty while text is generated). *)

Record EditorView := mkView {
  textBefore : string;   (* text content before the cursor *)
  textAfter : string     (* text content after the cursor *)
}.

(** [view.state.doc.textContent] *)
Definition textContent (v : EditorView) : string :=
  String.append (textBefore v) (textAfter v).

(** [view.dispatch(view.state.tr.insertText(chunk).scrollIntoView())] *)
Definition insertText (chunk : string) (v : EditorView) : EditorView :=
  mkView (String.append (textBefore v) chunk) (textAfter v).

(** [view.dispatch(state.tr.delete(0, state.doc.content.size))] *)
Definition deleteAll (v : EditorView) : EditorView :=
  mkView EmptyString EmptyString.

(** [view.dispatch(state.tr.setSelection(TextSelection.near(doc.resolve(doc.content.size))))] *)
Definition selectEnd (v : EditorView) : EditorView :=
  mkView (textContent v) EmptyString.

(** The document of a freshly created view:
    [DOMParser.fromSchema(mySchema).parse(document.createElement('div'))]. *)
Definition emptyView : EditorView := mkView EmptyString EmptyString.

(** ** The render queue: refs of the component *)

Record Refs := mkRefs {
  viewRef : option EditorView;   (* viewRef.current *)
  textQueueRef : string;         (* textQueueRef.current *)
  isProcessingQueue : bool;      (* isProcessingQueue.current *)
  pendingFrames : nat;           (* requestAnimationFrame(processQueue) callbacks not yet run *)
  insertions : list string       (* texts passed to insertText so far, oldest first *)
}.

Definition setQueue (q : string) (r : Refs) : Refs :=
  mkRefs (viewRef r) q (isProcessingQueue r) (pendingFrames r) (insertions r).

Definition setProcessing (b : bool) (r : Refs) : Refs :=
  mkRefs (viewRef r) (textQueueRef r) b (pendingFrames r) (insertions r).

Definition setFrames (n : nat) (r : Refs) : Refs :=
  mkRefs (viewRef r) (textQueueRef r) (isProcessingQueue r) n (insertions r).

Definition setView (v : EditorView) (r : Refs) : Refs :=
  mkRefs (Some v) (textQueueRef r) (isProcessingQueue r) (pendingFrames r) (insertions r).

(** The adaptive typing speed of [processQueue]. *)
Definition chunkSizeFor (queueLength : nat) : nat :=
  if 200 <? queueLength then 50
  else if 100 <? queueLength then 25
  else if 50 <? queueLength then 10
  else if 10 <? queueLength then 4
  else 2.

(** [processQueue]: one step of the drain loop. *)
Definition processQueue (r : Refs) : Refs :=
  match viewRef r with
  | None => r
  | Some view =>
      if 0 <? String.length (textQueueRef r) then
        let queueLength := String.length (textQueueRef r) in
        let chunkSize := chunkSizeFor queueLength in
        let chunk := Js.slice (textQueueRef r) 0 chunkSize in
        mkRefs (Some (insertText chunk view))
               (Js.sliceFrom (textQueueRef r) chunkSize)
               (isProcessingQueue r)
               (S (pendingFrames r))
               (insertions r ++ [chunk])
      else setProcessing false r
  end.

(** [triggerProcessing], installed on the view as [triggerTyping]. *)
Definition triggerProcessing (r : Refs) : Refs :=
  if negb (isProcessingQueue r) then processQueue (setProcessing true r) else r.

(** The browser runs one pending animation-frame callback, if there is one. *)
Definition frame (r : Refs) : Refs :=
  match pendingFrames r with
  | O => r
  | S n => processQueue (setFrames n r)
  end.

(** The body of the fragment callback once its [active] guard has passed:
    [textQueueRef.current += chunk], then [triggerTyping()] when the view is
    there (the mount effect installs [triggerTyping] on every view). *)
Definition enqueue (chunk : string) (r : Refs) : Refs :=
  let r1 := setQueue (String.append (textQueueRef r) chunk) r in
  match viewRef r1 with
  | Some _ => triggerProcessing r1
  | None => r1
  end.

(** The refs right after the component has mounted. *)
Definition mountRefs (v : EditorView) : Refs :=
  mkRefs (Some v) EmptyString false 0 [].

(** Operations on the queue alone, for schedules of the producer and the
    browser. *)
Inductive QueueOp :=
| Enqueue (fragment : string)
| Tick.

Definition applyOp (r : Refs) (op : QueueOp) : Refs :=
  match op with
  | Enqueue fragment => enqueue fragment r
  | Tick => frame r
  end.

Definition runQueue (r : Refs) (ops : list QueueOp) : Refs :=
  fold_left applyOp ops r.

Fixpoint enqueued (ops : list QueueOp) : list string :=
  match ops with
  | [] => []
  | Enqueue fragment :: ops' => fragment :: enqueued ops'
  | Tick :: ops' => enqueued ops'
  end.

(** [n] animation frames in a row. *)
Fixpoint frames (n : nat) (r : Refs) : Refs :=
  match n with
  | O => r
  | S n' => frames n' (frame r)
  end.

(** The staircase of the specification, interval by interval. *)
Definition staircase (L : nat) : option nat :=
  if (200 <? L) then Some 50
  else if (100 <? L) && (L <=? 200) then Some 25
  else if (50 <? L) && (L <=? 100) then Some 10
  else if (10 <? L) && (L <=? 50) then Some 4
  else if (1 <=? L) && (L <=? 10) then Some 2
  else None.

(** ** The generation controller *)

Inductive Status := idle | generating | success | error | cancelled.

Record GenerationRequest := mkRequest {
  baseText : string;
  instruction : option string
}.

Record Session := mkSession {
  status : Status;
  request : option GenerationRequest;
  errorMessage : option string
}.

(** The events [Editor.tsx] sends to the machine. *)
Inductive MachineEvent :=
| CONTINUE_WRITING (currentText : string) (instruction : option string)
| GENERATION_COMPLETE
| ERROR (message : string)
| CANCEL.

(** Modelled from the spec: [src/machines/editorMachine.ts], the XState
    machine behind [useActor(editorMachine)], is not among the sources.  The
    transitions are those of the table in section 4.2: START is
    [CONTINUE_WRITING], COMPLETE is [GENERATION_COMPLETE], FAIL is [ERROR];
    START stores the request and clears the data of the previous session; an
    event a state does not define is ignored. *)
Definition transition (s : Session) (e : MachineEvent) : Session :=
  match status s, e with
  | generating, GENERATION_COMPLETE => mkSession success (request s) (errorMessage s)
  | generating, ERROR message => mkSession error (request s) (Some message)
  | generating, CANCEL => mkSession cancelled (request s) (errorMessage s)
  | generating, CONTINUE_WRITING _ _ => s
  | _, CONTINUE_WRITING currentText instr =>
      mkSession generating (Some (mkRequest currentText instr)) None
  | _, _ => s
  end.

(** Modelled from the spec: the session the machine starts in ([idle], no
    request, no error). *)
Definition initialSession : Session := mkSession idle None None.

(** [state.context.instruction] *)
Definition contextInstruction (s : Session) : option string :=
  match request s with
  | Some req => instruction req
  | None => None
  end.

Definition Status_eqb (a b : Status) : bool :=
  match a, b with
  | idle, idle | generating, generating | success, success
  | error, error | cancelled, cancelled => true
  | _, _ => false
  end.

Definition instruction_eqb (a b : option string) : bool :=
  match a, b with
  | None, None => true
  | Some x, Some y => String.eqb x y
  | _, _ => false
  end.

(** One call of [streamContinuation], made by the effect instance [callId]. *)
Record ProducerCall := mkCall {
  callId : nat;
  callBaseText : string;
  callInstruction : option string
}.

(** ** The component *)

Record Editor := mkEditor {
  refs : Refs;
  state : Session;               (* the snapshot of useActor(editorMachine) *)
  isExpanded : bool;
  promptText : string;
  activeFlags : list bool;       (* the [active] variable of each instance of the
                                    generation effect, oldest first *)
  producerCalls : list ProducerCall   (* calls of streamContinuation, oldest first *)
}.

Definition setRefs (r : Refs) (c : Editor) : Editor :=
  mkEditor r (state c) (isExpanded c) (promptText c) (activeFlags c) (producerCalls c).

Definition setState (s : Session) (c : Editor) : Editor :=
  mkEditor (refs c) s (isExpanded c) (promptText c) (activeFlags c) (producerCalls c).

Definition setIsExpanded (b : bool) (c : Editor) : Editor :=
  mkEditor (refs c) (state c) b (promptText c) (activeFlags c) (producerCalls c).

Definition setPromptText (p : string) (c : Editor) : Editor :=
  mkEditor (refs c) (state c) (isExpanded c) p (activeFlags c) (producerCalls c).

Definition setActiveFlags (f : list bool) (c : Editor) : Editor :=
  mkEditor (refs c) (state c) (isExpanded c) (promptText c) f (producerCalls c).

(** [active = false] in the closure of effect instance [k]. *)
Fixpoint deactivate (k : nat) (flags : list bool) : list bool :=
  match flags, k with
  | [], _ => []
  | _ :: rest, O => false :: rest
  | b :: rest, S k' => b :: deactivate k' rest
  end.

(** The [active] variable of effect instance [k]. *)
Definition isActive (k : nat) (c : Editor) : bool :=
  nth k (activeFlags c) false.

(** The synchronous part of [runGeneration], run by effect instance [k]:
    it reads the text of the document, moves the cursor to the end of the
    document and calls [streamContinuation]. *)
Definition runGeneration (k : nat) (c : Editor) : Editor :=
  match status (state c), viewRef (refs c) with
  | generating, Some view =>
      let currentText := textContent view in
      let instr := contextInstruction (state c) in
      mkEditor (setView (selectEnd view) (refs c))
               (state c)
               true
               (promptText c)
               (activeFlags c)
               (producerCalls c ++ [mkCall k currentText instr])
  | _, _ => c
  end.

(** React re-runs the generation effect: the cleanup of the live instance
    (the last one created) sets its [active] to false, then a new instance
    starts with [active = true] and calls [runGeneration]. *)
Definition rerunEffect (c : Editor) : Editor :=
  let cleaned := deactivate (length (activeFlags c) - 1) (activeFlags c) in
  runGeneration (length cleaned) (setActiveFlags (cleaned ++ [true]) c).

(** The dependencies [state.value] and [state.context.instruction] of the
    generation effect ([send] is stable). *)
Definition depsChanged (old new : Session) : bool :=
  negb (Status_eqb (status old) (status new))
  || negb (instruction_eqb (contextInstruction old) (contextInstruction new)).

(** [send(event)] followed by the commit of the render it causes: the effect
    is re-run when one of its dependencies changed.  The commit is taken to
    happen before the browser or the producer acts again. *)
Definition send (e : MachineEvent) (c : Editor) : Editor :=
  let s' := transition (state c) e in
  let c' := setState s' c in
  if depsChanged (state c) s' then rerunEffect c' else c'.

(** [clearEditor] *)
Definition clearEditor (c : Editor) : Editor :=
  match viewRef (refs c) with
  | None => c
  | Some view => setRefs (setQueue EmptyString (setView (deleteAll view) (refs c))) c
  end.

(** The text [handleStartGeneration] puts in the event: [isExpanded] is the
    value of the render the handler was created in. *)
Definition currentEditorText (wasExpanded : bool) (c : Editor) : string :=
  if wasExpanded then
    match viewRef (refs c) with
    | Some view => textContent view
    | None => EmptyString
    end
  else EmptyString.

(** [handleStartGeneration] *)
Definition handleStartGeneration (c : Editor) : Editor :=
  match viewRef (refs c) with
  | None => c
  | Some _ =>
      let c1 := if negb (isExpanded c) then setIsExpanded true (clearEditor c) else c in
      send (CONTINUE_WRITING (currentEditorText (isExpanded c) c1)
                             (Js.orUndefined (promptText c)))
           c1
  end.

(** [handleNewChat] *)
Definition handleNewChat (c : Editor) : Editor :=
  let c1 := if Status_eqb (status (state c)) generating then send CANCEL c else c in
  let c2 := clearEditor c1 in
  let c3 := setIsExpanded false (setPromptText EmptyString c2) in
  setRefs (setQueue EmptyString (refs c3)) c3.

(** The [onClick] of the action button. *)
Definition clickAction (c : Editor) : Editor :=
  if Status_eqb (status (state c)) generating then send CANCEL c
  else handleStartGeneration c.

(** The [onKeyDown] of the prompt input, for the key Enter. *)
Definition onKeyDownEnter (c : Editor) : Editor :=
  if Js.truthy (Js.trim (promptText c)) then handleStartGeneration c else c.

(** The callback given to [streamContinuation] by effect instance [k]. *)
Definition onFragment (k : nat) (chunk : string) (c : Editor) : Editor :=
  if negb (isActive k c) then c
  else setRefs (enqueue chunk (refs c)) c.

(** The promise of the call made by effect instance [k] resolves. *)
Definition onResolve (k : nat) (c : Editor) : Editor :=
  if isActive k c then send GENERATION_COMPLETE c else c.

(** The promise rejects with [err]; [message] is [err.message]. *)
Definition onReject (k : nat) (message : option string) (c : Editor) : Editor :=
  if isActive k c
  then send (ERROR (Js.orElse message "Failed to generate text")) c
  else c.

(** Whether effect instance [k] has called the producer. *)
Definition issued (k : nat) (c : Editor) : bool :=
  existsb (fun call => callId call =? k) (producerCalls c).

(** What the user, the browser and the producer can do to the component. *)
Inductive Event :=
| ClickAction
| PressEnter                 (* the key Enter in the prompt input *)
| NewChat
| TypePrompt (text : string)
| Frame
| Fragment (k : nat) (chunk : string)
| Resolve (k : nat)
| Reject (k : nat) (message : option string).

Definition step (c : Editor) (e : Event) : Editor :=
  match e with
  | ClickAction => clickAction c
  | PressEnter => onKeyDownEnter c
  | NewChat => handleNewChat c
  | TypePrompt text => setPromptText text c
  | Frame => setRefs (frame (refs c)) c
  | Fragment k chunk => if issued k c then onFragment k chunk c else c
  | Resolve k => if issued k c then onResolve k c else c
  | Reject k message => if issued k c then onReject k message c else c
  end.

Definition run (c : Editor) (evs : list Event) : Editor :=
  fold_left step evs c.

(** The component after mounting: the view exists, the machine is in its
    initial state and the generation effect has run once. *)
Definition mountEditor : Editor :=
  rerunEffect (mkEditor (mountRefs emptyView) initialSession false EmptyString [] []).

(** ** Invariants and auxiliary notions *)

(** The drain loop and its flag agree: a frame is pending exactly when
    [isProcessingQueue] is set, there is never more than one, and text is
    buffered only while the loop runs. *)
Definition loopInv (r : Refs) : Prop :=
  viewRef r <> None
  /\ pendingFrames r = (if isProcessingQueue r then 1 else 0)
  /\ (isProcessingQueue r = false -> textQueueRef r = EmptyString).

(** Everything the document sink was asked to insert, as one text. *)
Definition rendered (r : Refs) : string := Js.concat (insertions r).

(** Only the live instance of the generation effect, the last one, can have
    its [active] variable set. *)
Definition flagsInv (c : Editor) : Prop :=
  forall k, S k < length (activeFlags c) -> nth k (activeFlags c) false = false.

(** What holds of the component after every event: the drain loop and its
    flag agree, only the live effect instance is active, every producer call
    was made by an effect instance that exists, by a different instance each,
    none of them by the live instance unless a generation is running, and the
    result card is shown while a generation is running. *)
Definition editorInv (c : Editor) : Prop :=
  loopInv (refs c)
  /\ flagsInv c
  /\ (forall k, issued k c = true -> k < length (activeFlags c))
  /\ (status (state c) <> generating ->
      forall k, issued k c = true -> S k < length (activeFlags c))
  /\ (status (state c) = generating -> isExpanded c = true)
  /\ NoDup (map callId (producerCalls c)).

(** Events of the browser and of the producer: the user does nothing. *)
Definition background (e : Event) : bool :=
  match e with
  | Frame | Fragment _ _ | Resolve _ | Reject _ _ => true
  | _ => false
  end.

(** Animation frames and fragment deliveries only. *)
Definition streaming (e : Event) : bool :=
  match e with
  | Frame | Fragment _ _ => true
  | _ => false
  end.

(** The fragments among [evs] that the callbacks of [c] let through. *)
Fixpoint accepted (c : Editor) (evs : list Event) : list string :=
  match evs with
  | [] => []
  | Fragment k chunk :: rest =>
      if issued k c && isActive k c then chunk :: accepted c rest else accepted c rest
  | _ :: rest => accepted c rest
  end.

(** The component unmounts.  The cleanups run in the order of the effects:
    the view is destroyed and [viewRef.current] set to null, the animation
    frame requested last is cancelled, and [active] becomes false in the
    live instance of the generation effect. *)
Definition unmount (c : Editor) : Editor :=
  mkEditor (mkRefs None
                   (textQueueRef (refs c))
                   (isProcessingQueue (refs c))
                   (pendingFrames (refs c) - 1)
                   (insertions (refs c)))
           (state c) (isExpanded c) (promptText c)
           (deactivate (length (activeFlags c) - 1) (activeFlags c))
           (producerCalls c).

(** While a generation runs, the live effect instance is the one that
    called the producer, and its callback passes. *)
Definition liveInv (c : Editor) : Prop :=
  status (state c) = generating ->
  issued (length (activeFlags c) - 1) c = true
  /\ isActive (length (activeFlags c) - 1) c = true.

(** The text of the document before the cursor. *)
Definition docBefore (r : Refs) : string :=
  match viewRef r with
  | Some view => textBefore view
  | None => EmptyString
  end.

(** The text of the document after the cursor. *)
Definition docAfter (r : Refs) : string :=
  match viewRef r with
  | Some view => textAfter view
  | None => EmptyString
  end.

(** An inserted text is between 1 and 50 code units long. *)
Definition chunkOk (chunk : string) : Prop :=
  1 <= String.length chunk <= 50.

(** A text of [n] characters. *)
Fixpoint filler (n : nat) : string :=
  match n with
  | O => EmptyString
  | S n' => String "a"%char (filler n')
  end.

(** ** Strings *)

Section Strings.

Local Open Scope string_scope.

Lemma append_empty_r (s : string) : s ++ "" = s.
Proof. induction s as [|a s IH]; simpl; [reflexivity | now rewrite IH]. Qed.

Lemma append_assoc (s t u : string) : (s ++ t) ++ u = s ++ (t ++ u).
Proof. induction s as [|a s IH]; simpl; [reflexivity | now rewrite IH]. Qed.

Lemma length_append (s t : string) :
  String.length (s ++ t) = String.length s + String.length t.
Proof. induction s as [|a s IH]; simpl; [reflexivity | now rewrite IH]. Qed.

Lemma length_zero_empty (s : string) : String.length s = 0 -> s = "".
Proof. destruct s; simpl; [reflexivity | discriminate]. Qed.

Lemma substring_prefix_length (s : string) :
  forall n, String.length (substring 0 n s) = Nat.min n (String.length s).
Proof.
  induction s as [|a s IH]; intros [|n]; simpl; try reflexivity.
  now rewrite IH.
Qed.

Lemma substring_suffix_length (s : string) :
  forall n, n <= String.length s ->
  String.length (substring n (String.length s - n) s) = String.length s - n.
Proof.
  induction s as [|a s IH]; intros [|n] Hn; simpl in *; try reflexivity.
  - rewrite substring_prefix_length. lia.
  - apply IH. lia.
Qed.

Lemma substring_whole (s : string) : substring 0 (String.length s) s = s.
Proof. induction s as [|a s IH]; simpl; [reflexivity | now rewrite IH]. Qed.

Lemma substring_from_end (s : string) : substring (String.length s) 0 s = "".
Proof. induction s as [|a s IH]; simpl; [reflexivity | exact IH]. Qed.

Lemma substring_split (s : string) :
  forall n, n <= String.length s ->
  substring 0 n s ++ substring n (String.length s - n) s = s.
Proof.
  induction s as [|a s IH]; intros n Hn.
  - destruct n; reflexivity.
  - destruct n as [|n].
    + simpl. now rewrite substring_whole.
    + simpl in Hn. simpl. f_equal. apply IH. lia.
Qed.

Lemma slice_prefix_length (s : string) (n : nat) :
  String.length (Js.slice s 0 n) = Nat.min n (String.length s).
Proof.
  unfold Js.slice. simpl. rewrite Nat.sub_0_r, substring_prefix_length. lia.
Qed.

Lemma sliceFrom_length (s : string) (n : nat) :
  String.length (Js.sliceFrom s n) = String.length s - Nat.min n (String.length s).
Proof.
  unfold Js.sliceFrom, Js.slice. rewrite Nat.min_id.
  apply substring_suffix_length. lia.
Qed.

Lemma slice_split (s : string) (n : nat) :
  Js.slice s 0 n ++ Js.sliceFrom s n = s.
Proof.
  unfold Js.sliceFrom, Js.slice. simpl. rewrite Nat.sub_0_r, Nat.min_id.
  destruct (Nat.le_gt_cases n (String.length s)) as [Hle | Hgt].
  - rewrite (Nat.min_l n) by assumption. now apply substring_split.
  - rewrite (Nat.min_r n) by lia. rewrite Nat.sub_diag, substring_whole.
    rewrite substring_from_end. apply append_empty_r.
Qed.

Lemma concat_snoc (l : list string) (x : string) :
  Js.concat (l ++ [x]) = Js.concat l ++ x.
Proof.
  induction l as [|y l IH]; simpl.
  - apply append_empty_r.
  - rewrite IH. now rewrite append_assoc.
Qed.

End Strings.

(** ** The render queue *)

Section RenderQueue.

Local Open Scope string_scope.

Lemma chunkSizeFor_staircase (L : nat) :
  1 <= L -> staircase L = Some (chunkSizeFor L).
Proof.
  intros HL. unfold staircase, chunkSizeFor.
  repeat match goal with
         | |- context [Nat.ltb ?a ?b] => destruct (Nat.ltb_spec a b)
         | |- context [Nat.leb ?a ?b] => destruct (Nat.leb_spec a b)
         end; cbn [andb]; try reflexivity; lia.
Qed.

Lemma chunkSizeFor_pos (L : nat) : 2 <= chunkSizeFor L.
Proof.
  unfold chunkSizeFor.
  repeat match goal with |- context [Nat.ltb ?a ?b] => destruct (Nat.ltb a b) end; lia.
Qed.

Lemma processQueue_nonempty (r : Refs) (view : EditorView) :
  viewRef r = Some view ->
  1 <= String.length (textQueueRef r) ->
  processQueue r =
    mkRefs (Some (insertText (Js.slice (textQueueRef r) 0
                                (chunkSizeFor (String.length (textQueueRef r)))) view))
           (Js.sliceFrom (textQueueRef r) (chunkSizeFor (String.length (textQueueRef r))))
           (isProcessingQueue r)
           (S (pendingFrames r))
           (insertions r ++ [Js.slice (textQueueRef r) 0
                               (chunkSizeFor (String.length (textQueueRef r)))]).
Proof.
  intros Hv HL. unfold processQueue. rewrite Hv.
  destruct (Nat.ltb_spec 0 (String.length (textQueueRef r))); [reflexivity | lia].
Qed.

Lemma processQueue_empty (r : Refs) (view : EditorView) :
  viewRef r = Some view ->
  textQueueRef r = "" ->
  processQueue r = setProcessing false r.
Proof.
  intros Hv Hq. unfold processQueue. rewrite Hv, Hq. reflexivity.
Qed.

(** A drain step moves a prefix of the buffer to the sink and nothing else. *)
Lemma processQueue_prefix (r : Refs) :
  exists chunk,
    textQueueRef r = chunk ++ textQueueRef (processQueue r)
    /\ rendered (processQueue r) = rendered r ++ chunk
    /\ String.length chunk <= String.length (textQueueRef r).
Proof.
  unfold processQueue. destruct (viewRef r) as [view|].
  - destruct (Nat.ltb_spec 0 (String.length (textQueueRef r))) as [Hpos | Hzero].
    + exists (Js.slice (textQueueRef r) 0 (chunkSizeFor (String.length (textQueueRef r)))).
      unfold rendered. simpl. rewrite slice_split, concat_snoc, slice_prefix_length.
      repeat split. apply Nat.le_min_r.
    + exists "". unfold rendered. simpl. rewrite append_empty_r.
      repeat split; apply Nat.le_0_l.
  - exists "". rewrite append_empty_r. repeat split; apply Nat.le_0_l.
Qed.

Lemma frame_prefix (r : Refs) :
  exists chunk,
    textQueueRef r = chunk ++ textQueueRef (frame r)
    /\ rendered (frame r) = rendered r ++ chunk
    /\ String.length chunk <= String.length (textQueueRef r).
Proof.
  unfold frame. destruct (pendingFrames r) as [|n].
  - exists "". rewrite append_empty_r. repeat split; apply Nat.le_0_l.
  - exact (processQueue_prefix (setFrames n r)).
Qed.

Lemma frame_conserves (r : Refs) :
  rendered (frame r) ++ textQueueRef (frame r) = rendered r ++ textQueueRef r.
Proof.
  destruct (frame_prefix r) as (chunk & Hq & Hr & _).
  rewrite Hr, append_assoc, <- Hq. reflexivity.
Qed.

Lemma frames_conserve (n : nat) :
  forall r, rendered (frames n r) ++ textQueueRef (frames n r)
            = rendered r ++ textQueueRef r.
Proof.
  induction n as [|n IH]; intros r; simpl; [reflexivity|].
  rewrite IH. apply frame_conserves.
Qed.

Lemma triggerProcessing_conserves (r : Refs) :
  rendered (triggerProcessing r) ++ textQueueRef (triggerProcessing r)
  = rendered r ++ textQueueRef r.
Proof.
  unfold triggerProcessing. destruct (isProcessingQueue r); simpl; [reflexivity|].
  destruct (processQueue_prefix (setProcessing true r)) as (chunk & Hq & Hr & _).
  rewrite Hr, append_assoc, <- Hq. reflexivity.
Qed.

Lemma enqueue_conserves (fragment : string) (r : Refs) :
  rendered (enqueue fragment r) ++ textQueueRef (enqueue fragment r)
  = (rendered r ++ textQueueRef r) ++ fragment.
Proof.
  unfold enqueue. simpl. destruct (viewRef r).
  - rewrite triggerProcessing_conserves. simpl. now rewrite append_assoc.
  - simpl. now rewrite append_assoc.
Qed.

Lemma runQueue_conserves (ops : list QueueOp) :
  forall r, rendered (runQueue r ops) ++ textQueueRef (runQueue r ops)
            = (rendered r ++ textQueueRef r) ++ Js.concat (enqueued ops).
Proof.
  induction ops as [|[fragment|] ops IH]; intros r; simpl.
  - now rewrite append_empty_r.
  - unfold runQueue in *. simpl. rewrite IH, enqueue_conserves.
    now rewrite append_assoc.
  - unfold runQueue in *. simpl. rewrite IH, frame_conserves. reflexivity.
Qed.

(** *** The loop invariant *)

Lemma loopInv_mount (v : EditorView) : loopInv (mountRefs v).
Proof. repeat split; simpl; congruence. Qed.

Lemma loopInv_processQueue (r : Refs) :
  viewRef r <> None ->
  isProcessingQueue r = true ->
  pendingFrames r = 0 ->
  loopInv (processQueue r).
Proof.
  intros Hv Hp Hf. destruct (viewRef r) as [view|] eqn:Ev; [|congruence].
  destruct (Nat.ltb_spec 0 (String.length (textQueueRef r))) as [Hpos | Hzero].
  - rewrite (processQueue_nonempty r view Ev Hpos).
    repeat split; simpl; try congruence. now rewrite Hp, Hf.
  - assert (Hq : textQueueRef r = "") by (apply length_zero_empty; lia).
    rewrite (processQueue_empty r view Ev Hq).
    repeat split; simpl; congruence.
Qed.

Lemma loopInv_frame (r : Refs) : loopInv r -> loopInv (frame r).
Proof.
  intros (Hv & Hf & Hq). unfold frame.
  destruct (isProcessingQueue r) eqn:Ep; rewrite Hf.
  - apply loopInv_processQueue; simpl; auto.
  - repeat split; auto. now rewrite Ep.
Qed.

Lemma loopInv_triggerProcessing (r : Refs) :
  viewRef r <> None ->
  pendingFrames r = (if isProcessingQueue r then 1 else 0) ->
  loopInv (triggerProcessing r).
Proof.
  intros Hv Hf. unfold triggerProcessing.
  destruct (isProcessingQueue r) eqn:Ep; simpl.
  - repeat split; auto; try congruence. now rewrite Ep.
  - apply loopInv_processQueue; simpl; auto.
Qed.

Lemma loopInv_enqueue (fragment : string) (r : Refs) :
  loopInv r -> loopInv (enqueue fragment r).
Proof.
  intros (Hv & Hf & Hq). unfold enqueue. simpl.
  destruct (viewRef r) as [view|] eqn:Ev; [|congruence].
  apply loopInv_triggerProcessing; simpl; auto. congruence.
Qed.

Lemma loopInv_runQueue (ops : list QueueOp) :
  forall r, loopInv r -> loopInv (runQueue r ops).
Proof.
  induction ops as [|[fragment|] ops IH]; intros r Hr; simpl; auto;
    apply IH; [apply loopInv_enqueue | apply loopInv_frame]; assumption.
Qed.

Lemma loopInv_setQueue_empty (r : Refs) : loopInv r -> loopInv (setQueue "" r).
Proof. intros (Hv & Hf & Hq). repeat split; simpl; auto. Qed.

Lemma loopInv_setView (v : EditorView) (r : Refs) : loopInv r -> loopInv (setView v r).
Proof. intros (Hv & Hf & Hq). repeat split; simpl; auto. congruence. Qed.

(** *** Draining *)

Lemma frames_quiesce (n : nat) :
  forall r, loopInv r ->
  String.length (textQueueRef r) + (if isProcessingQueue r then 1 else 0) <= n ->
  textQueueRef (frames n r) = ""
  /\ isProcessingQueue (frames n r) = false
  /\ pendingFrames (frames n r) = 0.
Proof.
  induction n as [|n IH]; intros r Hinv Hm.
  - destruct Hinv as (Hv & Hf & Hq). simpl.
    destruct (isProcessingQueue r) eqn:Ep; [lia|].
    repeat split; auto.
  - simpl. apply IH; [now apply loopInv_frame|].
    destruct Hinv as (Hv & Hf & Hq). unfold frame.
    destruct (isProcessingQueue r) eqn:Ep; rewrite Hf.
    + destruct (viewRef r) as [view|] eqn:Ev; [|congruence].
      destruct (Nat.ltb_spec 0 (String.length (textQueueRef r))) as [Hpos | Hzero].
      * rewrite (processQueue_nonempty (setFrames 0 r) view Ev Hpos). simpl.
        rewrite Ep, sliceFrom_length.
        pose proof (chunkSizeFor_pos (String.length (textQueueRef r))). lia.
      * assert (Hq' : textQueueRef r = "") by (apply length_zero_empty; lia).
        rewrite (processQueue_empty (setFrames 0 r) view Ev Hq'). simpl.
        rewrite Hq'. simpl. lia.
    + rewrite Ep, (Hq eq_refl). simpl. lia.
Qed.

Lemma frames_drain (r : Refs) :
  loopInv r ->
  let r' := frames (S (String.length (textQueueRef r))) r in
  textQueueRef r' = ""
  /\ isProcessingQueue r' = false
  /\ pendingFrames r' = 0
  /\ rendered r' = rendered r ++ textQueueRef r.
Proof.
  intros Hinv r'.
  destruct (frames_quiesce (S (String.length (textQueueRef r))) r Hinv)
    as (Hq & Hp & Hf).
  - destruct (isProcessingQueue r); lia.
  - repeat split; auto.
    pose proof (frames_conserve (S (String.length (textQueueRef r))) r) as Hc.
    fold r' in Hc, Hq. rewrite Hq, append_empty_r in Hc. exact Hc.
Qed.

End RenderQueue.

(** ** The generation controller *)

Section Controller.

Lemma Status_eqb_eq (a b : Status) : Status_eqb a b = true <-> a = b.
Proof. destruct a, b; simpl; split; intros H; try reflexivity; discriminate. Qed.

Lemma Status_eqb_refl (a : Status) : Status_eqb a a = true.
Proof. now apply Status_eqb_eq. Qed.

Lemma instruction_eqb_refl (a : option string) : instruction_eqb a a = true.
Proof. destruct a as [x|]; simpl; [apply String.eqb_refl | reflexivity]. Qed.

Lemma depsChanged_refl (s : Session) : depsChanged s s = false.
Proof.
  unfold depsChanged. now rewrite Status_eqb_refl, instruction_eqb_refl.
Qed.

Lemma depsChanged_false_status (old new : Session) :
  depsChanged old new = false -> status old = status new.
Proof.
  unfold depsChanged. intros H. apply orb_false_iff in H as [H _].
  apply negb_false_iff in H. now apply Status_eqb_eq.
Qed.

Lemma deactivate_length (flags : list bool) :
  forall k, length (deactivate k flags) = length flags.
Proof.
  induction flags as [|b flags IH]; intros [|k]; simpl; try reflexivity.
  now rewrite IH.
Qed.

Lemma nth_deactivate (flags : list bool) :
  forall k j, nth j (deactivate k flags) false
              = if j =? k then false else nth j flags false.
Proof.
  induction flags as [|b flags IH]; intros [|k] [|j]; simpl; try reflexivity.
  - now destruct (j =? k).
  - apply IH.
Qed.

(** The flags after a re-run of the effect: one more, the last one set. *)
Lemma rerun_flags_length (flags : list bool) :
  length (deactivate (length flags - 1) flags ++ [true]) = S (length flags).
Proof. rewrite length_app, deactivate_length. simpl. lia. Qed.

Lemma rerun_flags_old (flags : list bool) (k : nat) :
  (forall j, S j < length flags -> nth j flags false = false) ->
  k < length flags ->
  nth k (deactivate (length flags - 1) flags ++ [true]) false = false.
Proof.
  intros Hinv Hk. rewrite app_nth1 by (now rewrite deactivate_length).
  rewrite nth_deactivate. destruct (Nat.eqb_spec k (length flags - 1)) as [E | E].
  - reflexivity.
  - apply Hinv. lia.
Qed.

Lemma issued_app (k : nat) (c : Editor) (calls : list ProducerCall) (call : ProducerCall) :
  producerCalls c = calls ++ [call] ->
  issued k c = existsb (fun x => callId x =? k) calls || (callId call =? k).
Proof.
  intros H. unfold issued. rewrite H, existsb_app. simpl. now rewrite orb_false_r.
Qed.

Lemma issued_In (k : nat) (c : Editor) :
  issued k c = true <-> In k (map callId (producerCalls c)).
Proof.
  unfold issued. rewrite existsb_exists, in_map_iff. split.
  - intros (x & Hx & E). exists x. apply Nat.eqb_eq in E. auto.
  - intros (x & E & Hx). exists x. split; [assumption | now apply Nat.eqb_eq].
Qed.

(** *** The effect *)

Lemma rerunEffect_generating (c : Editor) (view : EditorView) :
  status (state c) = generating ->
  viewRef (refs c) = Some view ->
  rerunEffect c =
    mkEditor (setView (selectEnd view) (refs c)) (state c) true (promptText c)
             (deactivate (length (activeFlags c) - 1) (activeFlags c) ++ [true])
             (producerCalls c ++ [mkCall (length (activeFlags c)) (textContent view)
                                         (contextInstruction (state c))]).
Proof.
  intros Hs Hv. unfold rerunEffect, runGeneration. simpl.
  rewrite Hs, Hv, deactivate_length. reflexivity.
Qed.

Lemma rerunEffect_other (c : Editor) :
  status (state c) <> generating ->
  rerunEffect c =
    setActiveFlags (deactivate (length (activeFlags c) - 1) (activeFlags c) ++ [true]) c.
Proof.
  intros Hs. unfold rerunEffect, runGeneration. simpl.
  destruct (status (state c)); try reflexivity. congruence.
Qed.

(** The effect never touches the buffer, the loop or the text of the
    document, whatever the state of the machine. *)
Lemma rerunEffect_text (c : Editor) :
  textQueueRef (refs (rerunEffect c)) = textQueueRef (refs c)
  /\ isProcessingQueue (refs (rerunEffect c)) = isProcessingQueue (refs c)
  /\ pendingFrames (refs (rerunEffect c)) = pendingFrames (refs c)
  /\ insertions (refs (rerunEffect c)) = insertions (refs c)
  /\ option_map textContent (viewRef (refs (rerunEffect c)))
     = option_map textContent (viewRef (refs c))
  /\ promptText (rerunEffect c) = promptText c
  /\ state (rerunEffect c) = state c.
Proof.
  unfold rerunEffect, runGeneration. simpl.
  destruct (status (state c)); try (repeat split; reflexivity).
  destruct (viewRef (refs c)) as [view|] eqn:Ev; simpl.
  - repeat split. unfold textContent. simpl. now rewrite append_empty_r.
  - rewrite Ev. repeat split.
Qed.

Lemma send_text (e : MachineEvent) (c : Editor) :
  textQueueRef (refs (send e c)) = textQueueRef (refs c)
  /\ isProcessingQueue (refs (send e c)) = isProcessingQueue (refs c)
  /\ pendingFrames (refs (send e c)) = pendingFrames (refs c)
  /\ insertions (refs (send e c)) = insertions (refs c)
  /\ option_map textContent (viewRef (refs (send e c)))
     = option_map textContent (viewRef (refs c))
  /\ promptText (send e c) = promptText c
  /\ state (send e c) = transition (state c) e.
Proof.
  unfold send. destruct (depsChanged (state c) (transition (state c) e)).
  - exact (rerunEffect_text (setState (transition (state c) e) c)).
  - simpl. repeat split.
Qed.

Lemma send_refs_other (e : MachineEvent) (c : Editor) :
  status (transition (state c) e) <> generating ->
  refs (send e c) = refs c /\ producerCalls (send e c) = producerCalls c.
Proof.
  intros Hs. unfold send. destruct (depsChanged (state c) (transition (state c) e)).
  - rewrite rerunEffect_other by exact Hs. simpl. split; reflexivity.
  - simpl. split; reflexivity.
Qed.

(** *** The invariant of the component *)

Lemma flagsInv_rerun (flags : list bool) :
  (forall j, S j < length flags -> nth j flags false = false) ->
  forall k, S k < length (deactivate (length flags - 1) flags ++ [true]) ->
  nth k (deactivate (length flags - 1) flags ++ [true]) false = false.
Proof.
  intros Hinv k Hk. rewrite rerun_flags_length in Hk.
  apply rerun_flags_old; [assumption | lia].
Qed.

Lemma editorInv_rerunEffect (c : Editor) :
  loopInv (refs c) ->
  flagsInv c ->
  (forall k, issued k c = true -> k < length (activeFlags c)) ->
  NoDup (map callId (producerCalls c)) ->
  editorInv (rerunEffect c).
Proof.
  intros Hloop Hflags Hissued Hnodup.
  destruct (viewRef (refs c)) as [view|] eqn:Ev; [|destruct Hloop; congruence].
  assert (Hgen : {status (state c) = generating} + {status (state c) <> generating})
    by (destruct (status (state c)); (now left) || (right; discriminate)).
  destruct Hgen as [Hs | Hs].
  - rewrite (rerunEffect_generating c view Hs Ev). unfold editorInv; simpl.
    split; [now apply loopInv_setView|].
    split; [intros k; simpl; now apply flagsInv_rerun|].
    split; [|split; [congruence | split; [reflexivity|]]].
    + intros k Hk. rewrite rerun_flags_length.
      erewrite issued_app in Hk by reflexivity. apply orb_true_iff in Hk as [Hk | Hk].
      * specialize (Hissued k Hk). lia.
      * simpl in Hk. apply Nat.eqb_eq in Hk. lia.
    + rewrite map_app. simpl. apply NoDup_app; [assumption | repeat constructor; intros [] |].
      intros k Hk [E | []]. subst k. apply issued_In in Hk.
      specialize (Hissued _ Hk). lia.
  - rewrite (rerunEffect_other c Hs). unfold editorInv; simpl.
    split; [assumption|].
    split; [intros k; simpl; now apply flagsInv_rerun|].
    split; [|split; [|split; [congruence | assumption]]].
    + intros k Hk. rewrite rerun_flags_length. specialize (Hissued k Hk). lia.
    + intros _ k Hk. rewrite rerun_flags_length. specialize (Hissued k Hk). lia.
Qed.

Lemma editorInv_mount : editorInv mountEditor.
Proof.
  apply editorInv_rerunEffect; simpl.
  - apply loopInv_mount.
  - intros k Hk. simpl in Hk. lia.
  - intros k Hk. discriminate.
  - constructor.
Qed.

Lemma editorInv_send (e : MachineEvent) (c : Editor) :
  editorInv c -> editorInv (send e c).
Proof.
  intros (Hloop & Hflags & Hissued & Hended & Hexp & Hnodup). unfold send.
  destruct (depsChanged (state c) (transition (state c) e)) eqn:Ed.
  - now apply editorInv_rerunEffect.
  - apply depsChanged_false_status in Ed. unfold editorInv; simpl.
    rewrite <- Ed. repeat split; try assumption; apply Hloop.
Qed.

Lemma editorInv_refs (r : Refs) (c : Editor) :
  loopInv r -> editorInv c -> editorInv (setRefs r c).
Proof.
  intros Hr (Hloop & Hflags & Hissued & Hended & Hexp & Hnodup).
  unfold editorInv; simpl. repeat split; try assumption; apply Hr.
Qed.

Lemma editorInv_promptText (p : string) (c : Editor) :
  editorInv c -> editorInv (setPromptText p c).
Proof.
  intros (Hloop & Hflags & Hissued & Hended & Hexp & Hnodup).
  unfold editorInv; simpl. repeat split; try assumption; apply Hloop.
Qed.

Lemma editorInv_expanded (b : bool) (c : Editor) :
  (status (state c) = generating -> b = true) ->
  editorInv c -> editorInv (setIsExpanded b c).
Proof.
  intros Hb (Hloop & Hflags & Hissued & Hended & Hexp & Hnodup).
  unfold editorInv; simpl. repeat split; try assumption; apply Hloop.
Qed.

Lemma loopInv_cleared (view : EditorView) (r : Refs) :
  loopInv r -> loopInv (setQueue EmptyString (setView view r)).
Proof. intros H. now apply loopInv_setQueue_empty, loopInv_setView. Qed.

Lemma editorInv_clearEditor (c : Editor) : editorInv c -> editorInv (clearEditor c).
Proof.
  intros H. unfold clearEditor. destruct (viewRef (refs c)) as [view|]; [|assumption].
  apply editorInv_refs; [|assumption]. apply loopInv_cleared, H.
Qed.

Lemma editorInv_handleStartGeneration (c : Editor) :
  editorInv c -> editorInv (handleStartGeneration c).
Proof.
  intros H. unfold handleStartGeneration.
  destruct (viewRef (refs c)); [|assumption].
  apply editorInv_send. destruct (isExpanded c); simpl; [assumption|].
  apply editorInv_expanded; [reflexivity | now apply editorInv_clearEditor].
Qed.

(** After the handler of New Chat has sent [CANCEL], no generation runs. *)
Lemma cancel_first_not_generating (c : Editor) :
  status (state (if Status_eqb (status (state c)) generating then send CANCEL c else c))
  <> generating.
Proof.
  destruct (Status_eqb (status (state c)) generating) eqn:E.
  - apply Status_eqb_eq in E. destruct (send_text CANCEL c) as (_ & _ & _ & _ & _ & _ & Hs).
    rewrite Hs. unfold transition. rewrite E. simpl. discriminate.
  - intros Hs. rewrite Hs in E. discriminate.
Qed.

Lemma clearEditor_state (c : Editor) :
  state (clearEditor c) = state c
  /\ activeFlags (clearEditor c) = activeFlags c
  /\ producerCalls (clearEditor c) = producerCalls c
  /\ promptText (clearEditor c) = promptText c
  /\ isExpanded (clearEditor c) = isExpanded c.
Proof.
  unfold clearEditor. destruct (viewRef (refs c)); simpl; repeat split.
Qed.

Lemma editorInv_handleNewChat (c : Editor) :
  editorInv c -> editorInv (handleNewChat c).
Proof.
  intros H. unfold handleNewChat.
  pose proof (cancel_first_not_generating c) as Hs.
  set (c1 := if Status_eqb (status (state c)) generating then send CANCEL c else c) in *.
  assert (H1 : editorInv c1)
    by (subst c1; destruct (Status_eqb (status (state c)) generating);
        [now apply editorInv_send | assumption]).
  apply editorInv_refs.
  - simpl. apply loopInv_setQueue_empty. apply (editorInv_clearEditor c1 H1).
  - apply editorInv_expanded.
    + simpl. destruct (clearEditor_state c1) as (E & _). rewrite E. congruence.
    + apply editorInv_promptText. now apply editorInv_clearEditor.
Qed.

Lemma editorInv_step (c : Editor) (e : Event) : editorInv c -> editorInv (step c e).
Proof.
  intros H. destruct e as [| | |text| |k chunk|k|k message]; simpl.
  - unfold clickAction. destruct (Status_eqb (status (state c)) generating).
    + now apply editorInv_send.
    + now apply editorInv_handleStartGeneration.
  - unfold onKeyDownEnter. destruct (Js.truthy (Js.trim (promptText c))).
    + now apply editorInv_handleStartGeneration.
    + assumption.
  - now apply editorInv_handleNewChat.
  - now apply editorInv_promptText.
  - apply editorInv_refs; [|assumption]. apply loopInv_frame, H.
  - destruct (issued k c); [|assumption]. unfold onFragment.
    destruct (isActive k c); simpl; [|assumption].
    apply editorInv_refs; [|assumption]. apply loopInv_enqueue, H.
  - destruct (issued k c); [|assumption]. unfold onResolve.
    destruct (isActive k c); [now apply editorInv_send | assumption].
  - destruct (issued k c); [|assumption]. unfold onReject.
    destruct (isActive k c); [now apply editorInv_send | assumption].
Qed.

Lemma editorInv_run (evs : list Event) :
  forall c, editorInv c -> editorInv (run c evs).
Proof.
  induction evs as [|e evs IH]; intros c H; simpl; [assumption|].
  apply IH. now apply editorInv_step.
Qed.

Lemma editorInv_reachable (evs : list Event) : editorInv (run mountEditor evs).
Proof. apply editorInv_run, editorInv_mount. Qed.

(** *** Effect instances and producer calls only accumulate *)

Lemma runGeneration_flags (k : nat) (c : Editor) :
  activeFlags (runGeneration k c) = activeFlags c.
Proof.
  unfold runGeneration. destruct (status (state c)); try reflexivity.
  destruct (viewRef (refs c)); reflexivity.
Qed.

Lemma runGeneration_calls (k : nat) (c : Editor) :
  exists extra, producerCalls (runGeneration k c) = producerCalls c ++ extra
                /\ length extra <= 1.
Proof.
  unfold runGeneration.
  destruct (status (state c));
    try (exists []; rewrite app_nil_r; split; [reflexivity | simpl; lia]).
  destruct (viewRef (refs c)) as [view|].
  - eexists [_]. simpl. split; [reflexivity | lia].
  - exists []. rewrite app_nil_r. split; [reflexivity | simpl; lia].
Qed.

Lemma send_flags_length (e : MachineEvent) (c : Editor) :
  length (activeFlags c) <= length (activeFlags (send e c)).
Proof.
  unfold send. destruct (depsChanged (state c) (transition (state c) e)); simpl; [|lia].
  unfold rerunEffect. rewrite runGeneration_flags. simpl.
  rewrite rerun_flags_length. lia.
Qed.

Lemma send_calls (e : MachineEvent) (c : Editor) :
  exists extra, producerCalls (send e c) = producerCalls c ++ extra
                /\ length extra <= 1.
Proof.
  unfold send. destruct (depsChanged (state c) (transition (state c) e)).
  - unfold rerunEffect.
    match goal with |- context [runGeneration ?k ?c1] =>
      destruct (runGeneration_calls k c1) as (extra & E & Hl) end.
    exists extra. split; [exact E | exact Hl].
  - exists []. simpl. rewrite app_nil_r. split; [reflexivity | simpl; lia].
Qed.

Lemma handleStartGeneration_flags_length (c : Editor) :
  length (activeFlags c) <= length (activeFlags (handleStartGeneration c)).
Proof.
  unfold handleStartGeneration. destruct (viewRef (refs c)); [|lia].
  eapply Nat.le_trans; [|apply send_flags_length].
  destruct (isExpanded c); simpl; [lia|].
  destruct (clearEditor_state c) as (_ & E & _). rewrite E. lia.
Qed.

Lemma handleStartGeneration_calls (c : Editor) :
  exists extra, producerCalls (handleStartGeneration c) = producerCalls c ++ extra
                /\ length extra <= 1.
Proof.
  unfold handleStartGeneration. destruct (viewRef (refs c)).
  - match goal with |- context [send ?e ?c1] => destruct (send_calls e c1) as (extra & E & Hl) end.
    exists extra. rewrite E. split; [|assumption]. f_equal.
    destruct (isExpanded c); simpl; [reflexivity|].
    now destruct (clearEditor_state c) as (_ & _ & Ec & _).
  - exists []. rewrite app_nil_r. split; [reflexivity | simpl; lia].
Qed.

Lemma handleNewChat_flags_length (c : Editor) :
  length (activeFlags c) <= length (activeFlags (handleNewChat c)).
Proof.
  unfold handleNewChat. simpl.
  match goal with |- context [clearEditor ?c1] =>
    destruct (clearEditor_state c1) as (_ & E & _); rewrite E end.
  destruct (Status_eqb (status (state c)) generating); [apply send_flags_length | lia].
Qed.

Lemma handleNewChat_calls (c : Editor) :
  exists extra, producerCalls (handleNewChat c) = producerCalls c ++ extra
                /\ length extra <= 1.
Proof.
  unfold handleNewChat. simpl.
  match goal with |- context [clearEditor ?c1] =>
    destruct (clearEditor_state c1) as (_ & _ & E & _); rewrite E end.
  destruct (Status_eqb (status (state c)) generating); [apply send_calls|].
  exists []. rewrite app_nil_r. split; [reflexivity | simpl; lia].
Qed.

Lemma step_flags_length (c : Editor) (e : Event) :
  length (activeFlags c) <= length (activeFlags (step c e)).
Proof.
  destruct e as [| | |text| |k chunk|k|k message]; simpl; try lia.
  - unfold clickAction. destruct (Status_eqb (status (state c)) generating);
      [apply send_flags_length | apply handleStartGeneration_flags_length].
  - unfold onKeyDownEnter. destruct (Js.truthy (Js.trim (promptText c)));
      [apply handleStartGeneration_flags_length | lia].
  - apply handleNewChat_flags_length.
  - destruct (issued k c); [|lia]. unfold onFragment.
    destruct (isActive k c); simpl; lia.
  - destruct (issued k c); [|lia]. unfold onResolve.
    destruct (isActive k c); [apply send_flags_length | lia].
  - destruct (issued k c); [|lia]. unfold onReject.
    destruct (isActive k c); [apply send_flags_length | lia].
Qed.

Lemma step_calls (c : Editor) (e : Event) :
  exists extra, producerCalls (step c e) = producerCalls c ++ extra
                /\ length extra <= 1.
Proof.
  assert (Hsame : exists extra, producerCalls c = producerCalls c ++ extra
                                /\ length extra <= 1)
    by (exists []; rewrite app_nil_r; split; [reflexivity | simpl; lia]).
  destruct e as [| | |text| |k chunk|k|k message]; simpl; try exact Hsame.
  - unfold clickAction. destruct (Status_eqb (status (state c)) generating);
      [apply send_calls | apply handleStartGeneration_calls].
  - unfold onKeyDownEnter. destruct (Js.truthy (Js.trim (promptText c)));
      [apply handleStartGeneration_calls | exact Hsame].
  - apply handleNewChat_calls.
  - destruct (issued k c); [|exact Hsame]. unfold onFragment.
    destruct (isActive k c); simpl; exact Hsame.
  - destruct (issued k c); [|exact Hsame]. unfold onResolve.
    destruct (isActive k c); [apply send_calls | exact Hsame].
  - destruct (issued k c); [|exact Hsame]. unfold onReject.
    destruct (isActive k c); [apply send_calls | exact Hsame].
Qed.

Lemma run_flags_length (evs : list Event) :
  forall c, length (activeFlags c) <= length (activeFlags (run c evs)).
Proof.
  induction evs as [|e evs IH]; intros c; simpl; [lia|].
  eapply Nat.le_trans; [apply step_flags_length | apply IH].
Qed.

Lemma run_calls (evs : list Event) :
  forall c, exists extra, producerCalls (run c evs) = producerCalls c ++ extra.
Proof.
  induction evs as [|e evs IH]; intros c; simpl.
  - exists []. now rewrite app_nil_r.
  - destruct (IH (step c e)) as (extra2 & E2).
    destruct (step_calls c e) as (extra1 & E1 & _).
    exists (extra1 ++ extra2). fold (run (step c e) evs). now rewrite E2, E1, app_assoc.
Qed.

Lemma run_issued (evs : list Event) (k : nat) (c : Editor) :
  issued k c = true -> issued k (run c evs) = true.
Proof.
  intros H. destruct (run_calls evs c) as (extra & E).
  unfold issued in *. rewrite E, existsb_app, H. reflexivity.
Qed.

(** *** Deliveries of a producer call whose effect instance is not live *)

Lemma stale_inactive (c : Editor) (k : nat) :
  editorInv c ->
  issued k c = true ->
  status (state c) <> generating \/ S k < length (activeFlags c) ->
  isActive k c = false.
Proof.
  intros (_ & Hflags & _ & Hended & _) Hk Hor. apply Hflags.
  destruct Hor as [Hs | Hlt]; [now apply Hended | assumption].
Qed.

Lemma stale_fragment (c : Editor) (k : nat) (chunk : string) :
  editorInv c ->
  status (state c) <> generating \/ S k < length (activeFlags c) ->
  step c (Fragment k chunk) = c.
Proof.
  intros H Hor. simpl. destruct (issued k c) eqn:Ei; [|reflexivity].
  unfold onFragment. now rewrite (stale_inactive c k H Ei Hor).
Qed.

Lemma stale_settle (c : Editor) (k : nat) (message : option string) :
  editorInv c ->
  status (state c) <> generating \/ S k < length (activeFlags c) ->
  step c (Resolve k) = c /\ step c (Reject k message) = c.
Proof.
  intros H Hor. simpl. destruct (issued k c) eqn:Ei; [|split; reflexivity].
  unfold onResolve, onReject. now rewrite (stale_inactive c k H Ei Hor).
Qed.

(** A producer call whose callback still passes belongs to the generation
    that is running. *)
Lemma active_generating (c : Editor) (k : nat) :
  editorInv c ->
  issued k c = true ->
  isActive k c = true ->
  status (state c) = generating /\ S k = length (activeFlags c).
Proof.
  intros H Hk Ha.
  assert (Hgen : {status (state c) = generating} + {status (state c) <> generating})
    by (destruct (status (state c)); (now left) || (right; discriminate)).
  destruct Hgen as [Hs | Hs].
  - split; [assumption|].
    destruct H as (_ & Hflags & Hissued & _). specialize (Hissued k Hk).
    destruct (Nat.eq_dec (S k) (length (activeFlags c))) as [E | E]; [assumption|].
    assert (Hf : nth k (activeFlags c) false = false) by (apply Hflags; lia).
    unfold isActive in Ha. congruence.
  - rewrite (stale_inactive c k H Hk (or_introl Hs)) in Ha. discriminate.
Qed.

(** *** Sending an event the machine ignores *)

Lemma setState_same (c : Editor) : setState (state c) c = c.
Proof. destruct c; reflexivity. Qed.

Lemma send_ignored (e : MachineEvent) (c : Editor) :
  transition (state c) e = state c -> send e c = c.
Proof.
  intros H. unfold send. rewrite H, depsChanged_refl. apply setState_same.
Qed.

Lemma transition_start_generating (s : Session) (currentText : string)
      (instr : option string) :
  status s = generating -> transition s (CONTINUE_WRITING currentText instr) = s.
Proof. intros H. unfold transition. now rewrite H. Qed.

Lemma transition_start_other (s : Session) (currentText : string)
      (instr : option string) :
  status s <> generating ->
  transition s (CONTINUE_WRITING currentText instr)
  = mkSession generating (Some (mkRequest currentText instr)) None.
Proof. intros H. unfold transition. destruct (status s); congruence. Qed.

Lemma depsChanged_start (s : Session) (currentText : string) (instr : option string) :
  status s <> generating ->
  depsChanged s (mkSession generating (Some (mkRequest currentText instr)) None) = true.
Proof.
  intros H. unfold depsChanged. simpl.
  destruct (status s); simpl; try reflexivity. congruence.
Qed.

(** A start from a state other than [generating]: the machine stores the
    request, the effect runs again and calls the producer once, with the
    text of the document. *)
Lemma send_start (c : Editor) (view : EditorView) (currentText : string)
      (instr : option string) :
  status (state c) <> generating ->
  viewRef (refs c) = Some view ->
  send (CONTINUE_WRITING currentText instr) c =
    mkEditor (setView (selectEnd view) (refs c))
             (mkSession generating (Some (mkRequest currentText instr)) None)
             true (promptText c)
             (deactivate (length (activeFlags c) - 1) (activeFlags c) ++ [true])
             (producerCalls c ++ [mkCall (length (activeFlags c)) (textContent view) instr]).
Proof.
  intros Hs Hv. unfold send.
  rewrite (transition_start_other _ _ _ Hs), (depsChanged_start _ _ _ Hs).
  now rewrite (rerunEffect_generating _ view).
Qed.

End Controller.

(** ** Properties of the render queue *)

Section RenderQueueProperties.

Local Open Scope string_scope.

(** Claim C1.  For every schedule of fragments enqueued into the render
    queue and of animation frames, with no cancel or reset, the texts passed
    to the insertion of the document sink, followed by what is still
    buffered, concatenate to the enqueued fragments in the order they were
    enqueued; once the queue has drained, the inserted texts alone
    concatenate to the enqueued fragments and the buffer is empty: nothing is
    lost, reordered or duplicated. *)
Theorem fifo_rendering (v : EditorView) (ops : list QueueOp) :
  let r := runQueue (mountRefs v) ops in
  let r' := frames (S (String.length (textQueueRef r))) r in
  rendered r ++ textQueueRef r = Js.concat (enqueued ops)
  /\ rendered r' = Js.concat (enqueued ops)
  /\ textQueueRef r' = "".
Proof.
  intros r r'.
  assert (Hc : rendered r ++ textQueueRef r = Js.concat (enqueued ops))
    by (unfold r; rewrite runQueue_conserves; reflexivity).
  destruct (frames_drain r (loopInv_runQueue ops _ (loopInv_mount v)))
    as (Hq & _ & _ & Hr).
  repeat split.
  - exact Hc.
  - fold r' in Hr. now rewrite Hr.
  - exact Hq.
Qed.

(** Claim C3.  A drain step on a mounted view with a buffer of length
    [L >= 1] takes its chunk size from [L] by the staircase (50 above 200, 25
    above 100, 10 above 50, 4 above 10, else 2), removes exactly
    [min chunkSize L] characters from the front of the buffer and issues
    exactly one insertion, of that prefix; from a buffer of 250 characters
    the first step leaves 200 and the next one 175. *)
Theorem drain_step_staircase (r : Refs) (view : EditorView) :
  viewRef r = Some view ->
  1 <= String.length (textQueueRef r) ->
  let L := String.length (textQueueRef r) in
  let chunk := Js.slice (textQueueRef r) 0 (chunkSizeFor L) in
  staircase L = Some (chunkSizeFor L)
  /\ String.length chunk = Nat.min (chunkSizeFor L) L
  /\ textQueueRef r = chunk ++ textQueueRef (processQueue r)
  /\ String.length (textQueueRef (processQueue r)) = L - Nat.min (chunkSizeFor L) L
  /\ insertions (processQueue r) = (insertions r ++ [chunk])%list
  /\ viewRef (processQueue r) = Some (insertText chunk view)
  /\ (L = 250 ->
      String.length (textQueueRef (processQueue r)) = 200
      /\ String.length (textQueueRef (frame (processQueue r))) = 175).
Proof.
  intros Hv HL L chunk.
  pose proof (processQueue_nonempty r view Hv HL) as Hstep. fold L chunk in Hstep.
  assert (Hlen : String.length (textQueueRef (processQueue r))
                 = L - Nat.min (chunkSizeFor L) L)
    by (rewrite Hstep; simpl; apply sliceFrom_length).
  split; [now apply chunkSizeFor_staircase|].
  split; [apply slice_prefix_length|].
  split; [rewrite Hstep; simpl; unfold chunk; now rewrite slice_split|].
  split; [exact Hlen|].
  split; [now rewrite Hstep|].
  split; [now rewrite Hstep|].
  intros H250. rewrite H250 in Hlen.
  change (250 - Nat.min (chunkSizeFor 250) 250) with 200 in Hlen.
  split; [exact Hlen|].
  assert (Hv' : viewRef (setFrames (pendingFrames r) (processQueue r))
                = Some (insertText chunk view)) by (now rewrite Hstep).
  assert (HL' : 1 <= String.length
                       (textQueueRef (setFrames (pendingFrames r) (processQueue r))))
    by (simpl; rewrite Hlen; lia).
  assert (Hframe : frame (processQueue r)
                   = processQueue (setFrames (pendingFrames r) (processQueue r)))
    by (unfold frame; rewrite Hstep; reflexivity).
  rewrite Hframe, (processQueue_nonempty _ _ Hv' HL'). simpl textQueueRef.
  rewrite sliceFrom_length, Hlen. reflexivity.
Qed.

Lemma drain_step_staircase_witness :
  let r := mkRefs (Some emptyView) (filler 250) true 0 [] in
  String.length (textQueueRef (processQueue r)) = 200
  /\ String.length (textQueueRef (frame (processQueue r))) = 175.
Proof.
  intros r.
  assert (Hv : viewRef r = Some emptyView) by reflexivity.
  assert (HL : 1 <= String.length (textQueueRef r)) by (vm_compute; lia).
  apply (drain_step_staircase r emptyView Hv HL). vm_compute. reflexivity.
Defined.

(** Claim C5.  In every state the component reaches, a frame removes a
    prefix of the buffer, never more than is buffered; when no further
    fragment arrives, the buffer is empty after finitely many frames (one
    more than its length is enough), [isProcessingQueue] is then false and no
    frame is scheduled, and later frames change nothing. *)
Theorem drain_terminates (evs : list Event) :
  let r := refs (run mountEditor evs) in
  let L := String.length (textQueueRef r) in
  (exists chunk,
      textQueueRef r = chunk ++ textQueueRef (frame r)
      /\ String.length chunk <= L)
  /\ String.length (textQueueRef (frame r)) <= L
  /\ forall n, L < n ->
       textQueueRef (frames n r) = ""
       /\ isProcessingQueue (frames n r) = false
       /\ pendingFrames (frames n r) = 0
       /\ frame (frames n r) = frames n r.
Proof.
  intros r L.
  assert (Hinv : loopInv r) by apply (editorInv_reachable evs).
  destruct (frame_prefix r) as (chunk & Hq & _ & Hl).
  split; [exists chunk; split; assumption|].
  split.
  - pose proof (f_equal String.length Hq) as Hlen.
    rewrite length_append in Hlen. unfold L. lia.
  - intros n Hn. destruct (frames_quiesce n r Hinv) as (Hq' & Hp & Hf).
    + fold L. destruct (isProcessingQueue r); lia.
    + repeat split; try assumption. unfold frame. now rewrite Hf.
Qed.

(** Claim C6.  In every state the component reaches there is at most one
    drain loop: a frame is scheduled exactly when [isProcessingQueue] is
    set, and then there is one; while the loop runs, starting it again does
    nothing and an enqueue only appends to the buffer; an enqueue starts the
    loop only when it does not run. *)
Theorem single_drain_loop (evs : list Event) :
  let r := refs (run mountEditor evs) in
  pendingFrames r = (if isProcessingQueue r then 1 else 0)
  /\ (isProcessingQueue r = true -> triggerProcessing r = r)
  /\ (forall fragment,
        isProcessingQueue r = true ->
        enqueue fragment r = setQueue (textQueueRef r ++ fragment) r)
  /\ (forall fragment,
        pendingFrames (enqueue fragment r)
        = (if isProcessingQueue (enqueue fragment r) then 1 else 0))
  /\ (forall fragment,
        isProcessingQueue r = false -> 1 <= String.length fragment ->
        isProcessingQueue (enqueue fragment r) = true
        /\ pendingFrames (enqueue fragment r) = 1).
Proof.
  intros r.
  assert (Hinv : loopInv r) by apply (editorInv_reachable evs).
  pose proof Hinv as (Hv & Hf & Hq).
  split; [exact Hf|].
  split; [intros Hp; unfold triggerProcessing; now rewrite Hp|].
  destruct (viewRef r) as [view|] eqn:Ev; [|congruence].
  split; [|split].
  - intros fragment Hp. unfold enqueue. simpl. rewrite Ev.
    unfold triggerProcessing. simpl. now rewrite Hp.
  - intros fragment. apply (loopInv_enqueue fragment r Hinv).
  - intros fragment Hp HL. unfold enqueue. simpl. rewrite Ev.
    unfold triggerProcessing. simpl. rewrite Hp. simpl.
    rewrite (processQueue_nonempty _ view).
    + simpl. rewrite Hf, Hp. split; reflexivity.
    + exact Ev.
    + simpl. rewrite length_append. lia.
Qed.

End RenderQueueProperties.

(** ** Properties of the generation controller *)

Section ControllerProperties.

Local Open Scope string_scope.

(** The Cancel button in any state the component reaches with a generation
    running: it only sends [CANCEL]; the session becomes [cancelled], the
    refs (buffer, drain loop, document) are left as they are, every fragment
    delivered afterwards is discarded, and the frames that follow insert
    what was buffered. *)
Lemma cancel_keeps_draining (evs : list Event) :
  let c := run mountEditor evs in
  status (state c) = generating ->
  let c' := step c ClickAction in
  status (state c') = cancelled
  /\ refs c' = refs c
  /\ (forall k chunk, step c' (Fragment k chunk) = c')
  /\ (forall n, String.length (textQueueRef (refs c)) < n ->
        rendered (frames n (refs c')) = rendered (refs c) ++ textQueueRef (refs c)
        /\ textQueueRef (frames n (refs c')) = "").
Proof.
  intros c Hs c'.
  assert (Hinv : editorInv c) by apply editorInv_reachable.
  assert (Hc' : c' = send CANCEL c)
    by (unfold c'; simpl; unfold clickAction; now rewrite Hs).
  assert (Hst : status (state c') = cancelled).
  { rewrite Hc'. destruct (send_text CANCEL c) as (_ & _ & _ & _ & _ & _ & E).
    rewrite E. unfold transition. now rewrite Hs. }
  assert (Hrefs : refs c' = refs c).
  { rewrite Hc'. apply send_refs_other. unfold transition. rewrite Hs. discriminate. }
  split; [exact Hst|]. split; [exact Hrefs|]. split.
  - intros k chunk. apply stale_fragment.
    + unfold c'. now apply editorInv_step.
    + left. rewrite Hst. discriminate.
  - intros n Hn. rewrite Hrefs.
    destruct (frames_quiesce n (refs c)) as (Hq & _ & _).
    + apply Hinv.
    + destruct (isProcessingQueue (refs c)); lia.
    + split; [|exact Hq].
      pose proof (frames_conserve n (refs c)) as Hcons.
      now rewrite Hq, append_empty_r in Hcons.
Qed.

(** Claim C2.  On the Cancel button the render queue is not reset.  A
    generation is started, the producer delivers "Hello world" (the first
    drain step inserts "Hell", 7 characters stay buffered) and the button,
    now Cancel, is clicked: the session is [cancelled], the buffer still
    holds "o world", the next frame inserts "o " into the document and the
    frames after it the rest.  On the other path that sends [CANCEL], New
    Chat, from the same state, the buffer is empty at once and the next
    frame inserts nothing. *)
Theorem cancel_button_leaves_buffer :
  let c0 := run mountEditor [ClickAction; Fragment 1 "Hello world"] in
  let c := step c0 ClickAction in
  let c_new := step c0 NewChat in
  (status (state c0) = generating
   /\ insertions (refs c0) = ["Hell"]%list
   /\ textQueueRef (refs c0) = "o world")
  /\ (status (state c) = cancelled
      /\ String.length (textQueueRef (refs c)) = 7
      /\ insertions (refs (step c Frame)) = ["Hell"; "o "]%list
      /\ insertions (refs (run c [Frame; Frame; Frame; Frame]))
         = ["Hell"; "o "; "wo"; "rl"; "d"]%list
      /\ step c (Fragment 1 "late") = c)
  /\ (status (state c_new) = cancelled
      /\ String.length (textQueueRef (refs c_new)) = 0
      /\ insertions (refs (step c_new Frame)) = ["Hell"]%list
      /\ insertions (refs (run c_new [Frame; Frame; Frame; Frame])) = ["Hell"]%list).
Proof. vm_compute. repeat split. Qed.

(** Claim C4.  Once a generation has ended (by a cancel, a completion, a
    failure or New Chat), a fragment delivered by the producer call of that
    generation is discarded whenever it arrives, also while a later
    generation runs: the component is left as it is and nothing is
    enqueued. *)
Theorem stale_fragment_never_forwarded (evs1 evs2 : list Event) (k : nat)
        (chunk : string) :
  let c1 := run mountEditor evs1 in
  let c2 := run c1 evs2 in
  issued k c1 = true ->
  status (state c1) <> generating ->
  step c2 (Fragment k chunk) = c2.
Proof.
  intros c1 c2 Hk Hs.
  assert (H1 : editorInv c1) by apply editorInv_reachable.
  assert (H2 : editorInv c2) by (apply editorInv_run; exact H1).
  apply stale_fragment; [exact H2|]. right.
  destruct H1 as (_ & _ & _ & Hended & _). specialize (Hended Hs k Hk).
  pose proof (run_flags_length evs2 c1) as Hlen. fold c2 in Hlen. lia.
Qed.

Lemma stale_fragment_never_forwarded_witness :
  let c1 := run mountEditor [ClickAction; Fragment 1 "Hello world"; ClickAction] in
  let c2 := run c1 [Frame; TypePrompt "more"; ClickAction; Fragment 3 "new"] in
  status (state c2) = generating
  /\ step c2 (Fragment 1 "stale") = c2
  /\ textQueueRef (refs (step c2 (Fragment 3 "!"))) <> textQueueRef (refs c2).
Proof.
  intros c1 c2. split; [reflexivity|]. split.
  - apply (stale_fragment_never_forwarded
             [ClickAction; Fragment 1 "Hello world"; ClickAction]
             [Frame; TypePrompt "more"; ClickAction; Fragment 3 "new"] 1 "stale").
    + reflexivity.
    + vm_compute. discriminate.
  - vm_compute. discriminate.
Defined.

(** Claim C7.  In every state the component reaches with a generation
    running, a start is a no-op: sending [CONTINUE_WRITING], the handler
    [handleStartGeneration] and the key Enter in the prompt all leave the
    component as it is, so the status stays [generating] and the producer is
    not called a second time. *)
Theorem start_while_generating_noop (evs : list Event) (currentText : string)
        (instr : option string) :
  let c := run mountEditor evs in
  status (state c) = generating ->
  send (CONTINUE_WRITING currentText instr) c = c
  /\ handleStartGeneration c = c
  /\ step c PressEnter = c.
Proof.
  intros c Hs.
  assert (Hinv : editorInv c) by apply editorInv_reachable.
  assert (Hsend : forall t i, send (CONTINUE_WRITING t i) c = c)
    by (intros t i; apply send_ignored; now apply transition_start_generating).
  assert (Hstart : handleStartGeneration c = c).
  { unfold handleStartGeneration. destruct (viewRef (refs c)); [|reflexivity].
    destruct Hinv as (_ & _ & _ & _ & Hexp & _). rewrite (Hexp Hs). simpl.
    apply Hsend. }
  split; [apply Hsend|]. split; [exact Hstart|].
  simpl. unfold onKeyDownEnter. rewrite Hstart. now destruct (Js.truthy _).
Qed.

Lemma start_while_generating_noop_witness :
  let c := run mountEditor [TypePrompt "a story"; ClickAction; Fragment 1 "Once"] in
  status (state c) = generating
  /\ producerCalls (step c PressEnter) = producerCalls c
  /\ length (producerCalls c) = 1.
Proof.
  intros c.
  assert (Hs : status (state c) = generating) by reflexivity.
  destruct (start_while_generating_noop
              [TypePrompt "a story"; ClickAction; Fragment 1 "Once"]
              "" None Hs) as (_ & _ & Henter).
  split; [exact Hs|]. split; [f_equal; exact Henter | reflexivity].
Defined.

(** Claim C8.  When the producer call of the running generation rejects, the
    session status becomes [error] and [errorMessage] is the message of the
    error when it has one that is not empty ("rate limited" gives "rate
    limited"), and the generic "Failed to generate text" when the error
    carries no message. *)
Theorem producer_failure_message (evs : list Event) (k : nat)
        (message : option string) :
  let c := run mountEditor evs in
  issued k c = true ->
  isActive k c = true ->
  let c' := step c (Reject k message) in
  status (state c') = error
  /\ errorMessage (state c') = Some (Js.orElse message "Failed to generate text")
  /\ (forall m, message = Some m -> 1 <= String.length m ->
        errorMessage (state c') = Some m)
  /\ (message = None -> errorMessage (state c') = Some "Failed to generate text").
Proof.
  intros c Hk Ha c'.
  assert (Hinv : editorInv c) by apply editorInv_reachable.
  destruct (active_generating c k Hinv Hk Ha) as (Hs & _).
  assert (Hst : state c' = mkSession error (request (state c))
                             (Some (Js.orElse message "Failed to generate text"))).
  { unfold c'. simpl. rewrite Hk. unfold onReject. rewrite Ha.
    destruct (send_text (ERROR (Js.orElse message "Failed to generate text")) c)
      as (_ & _ & _ & _ & _ & _ & E).
    rewrite E. unfold transition. now rewrite Hs. }
  rewrite Hst. simpl. split; [reflexivity|]. split; [reflexivity|]. split.
  - intros m Hm Hl. subst message. simpl. destruct m; simpl in *; [lia | reflexivity].
  - intros Hm. subst message. reflexivity.
Qed.

Lemma producer_failure_message_witness :
  let c := run mountEditor [ClickAction; Fragment 1 "partial"] in
  issued 1 c = true
  /\ isActive 1 c = true
  /\ status (state (step c (Reject 1 (Some "rate limited")))) = error
  /\ errorMessage (state (step c (Reject 1 (Some "rate limited"))))
     = Some "rate limited".
Proof.
  intros c.
  assert (Hk : issued 1 c = true) by reflexivity.
  assert (Ha : isActive 1 c = true) by reflexivity.
  destruct (producer_failure_message [ClickAction; Fragment 1 "partial"] 1
              (Some "rate limited") Hk Ha) as (Hs & _ & Hm & _).
  split; [exact Hk|]. split; [exact Ha|]. split; [exact Hs|].
  apply (Hm "rate limited" eq_refl). vm_compute. lia.
Defined.

(** Claim C9.  A rejection of the producer, in any state of the component,
    rolls nothing back and changes nothing in the document: the texts
    inserted so far, the text content of the document, the buffer and the
    state of the drain loop are the same after it as before. *)
Theorem failure_keeps_document (c : Editor) (k : nat) (message : option string) :
  let c' := step c (Reject k message) in
  insertions (refs c') = insertions (refs c)
  /\ option_map textContent (viewRef (refs c'))
     = option_map textContent (viewRef (refs c))
  /\ textQueueRef (refs c') = textQueueRef (refs c)
  /\ isProcessingQueue (refs c') = isProcessingQueue (refs c)
  /\ pendingFrames (refs c') = pendingFrames (refs c).
Proof.
  intros c'. unfold c'. simpl.
  destruct (issued k c); [|repeat split]. unfold onReject.
  destruct (isActive k c); [|repeat split].
  destruct (send_text (ERROR (Js.orElse message "Failed to generate text")) c)
    as (Hq & Hp & Hf & Hi & Hd & _).
  repeat split; assumption.
Qed.

(** Claim C10.  A start (from a state other than [generating], with the
    view mounted) while the result card is collapsed first clears the whole
    document and the buffer, and the base text is the empty string, in the
    event and in the call of the producer, whatever the document held; while
    the card is expanded the document and the buffer are kept and the base
    text is the text content of the document. *)
Theorem collapsed_start_base_text (c : Editor) (view : EditorView) :
  viewRef (refs c) = Some view ->
  status (state c) <> generating ->
  let c' := handleStartGeneration c in
  let instr := Js.orUndefined (promptText c) in
  (isExpanded c = false ->
     state c' = mkSession generating (Some (mkRequest "" instr)) None
     /\ producerCalls c'
        = (producerCalls c ++ [mkCall (length (activeFlags c)) "" instr])%list
     /\ option_map textContent (viewRef (refs c')) = Some ""
     /\ textQueueRef (refs c') = "")
  /\ (isExpanded c = true ->
     state c' = mkSession generating (Some (mkRequest (textContent view) instr)) None
     /\ producerCalls c'
        = (producerCalls c
             ++ [mkCall (length (activeFlags c)) (textContent view) instr])%list
     /\ option_map textContent (viewRef (refs c')) = Some (textContent view)
     /\ textQueueRef (refs c') = textQueueRef (refs c)).
Proof.
  intros Hv Hs c' instr. unfold c', handleStartGeneration. rewrite Hv. split; intros He.
  - rewrite He. simpl negb. cbv iota.
    assert (Hc : clearEditor c
                 = setRefs (setQueue "" (setView (deleteAll view) (refs c))) c)
      by (unfold clearEditor; now rewrite Hv).
    rewrite Hc. unfold currentEditorText.
    rewrite (send_start _ (deleteAll view)); [|exact Hs | reflexivity].
    simpl. repeat split.
  - rewrite He. simpl negb. cbv iota. unfold currentEditorText. rewrite Hv.
    rewrite (send_start _ view); [|exact Hs | exact Hv].
    simpl. repeat split. unfold textContent. simpl. now rewrite append_empty_r.
Qed.

Lemma collapsed_start_base_text_witness :
  let c := mkEditor (mkRefs (Some (mkView "old text" "")) "queued" true 1 ["old text"]%list)
                    initialSession false "continue" [true] [] in
  let c' := handleStartGeneration c in
  producerCalls c' = [mkCall 1 "" (Some "continue")]%list
  /\ option_map textContent (viewRef (refs c')) = Some ""
  /\ textQueueRef (refs c') = "".
Proof.
  intros c c'.
  assert (Hv : viewRef (refs c) = Some (mkView "old text" "")) by reflexivity.
  assert (Hs : status (state c) <> generating) by (vm_compute; discriminate).
  destruct (collapsed_start_base_text c (mkView "old text" "") Hv Hs) as (Hcollapsed & _).
  destruct (Hcollapsed eq_refl) as (_ & Hcalls & Hdoc & Hq).
  split; [exact Hcalls|]. split; [exact Hdoc | exact Hq].
Defined.

End ControllerProperties.

(** ** Further properties of the render queue *)

Section Pacing.

Local Open Scope string_scope.

Lemma chunkSizeFor_le_50 (L : nat) : chunkSizeFor L <= 50.
Proof.
  unfold chunkSizeFor.
  repeat match goal with |- context [Nat.ltb ?a ?b] => destruct (Nat.ltb a b) end; lia.
Qed.

(** Property X8.  The chunk size never decreases when the backlog grows, and it stays
    between 2 and 50. *)
Theorem chunkSizeFor_monotone (L1 L2 : nat) :
  L1 <= L2 ->
  chunkSizeFor L1 <= chunkSizeFor L2
  /\ 2 <= chunkSizeFor L1
  /\ chunkSizeFor L2 <= 50.
Proof.
  intros H. split; [|split; [apply chunkSizeFor_pos | apply chunkSizeFor_le_50]].
  unfold chunkSizeFor.
  repeat match goal with
         | |- context [Nat.ltb ?a ?b] => destruct (Nat.ltb_spec a b)
         end; lia.
Qed.

Lemma chunkSizeFor_monotone_witness :
  chunkSizeFor 100 <= chunkSizeFor 101 /\ chunkSizeFor 100 = 10 /\ chunkSizeFor 101 = 25.
Proof.
  split; [|split; reflexivity].
  apply (chunkSizeFor_monotone 100 101). lia.
Defined.

Lemma processQueue_insertions (r : Refs) :
  insertions (processQueue r) = insertions r
  \/ exists chunk, chunkOk chunk
                   /\ insertions (processQueue r) = (insertions r ++ [chunk])%list.
Proof.
  unfold processQueue. destruct (viewRef r) as [view|]; [|now left].
  destruct (Nat.ltb_spec 0 (String.length (textQueueRef r))) as [Hpos | Hzero];
    [|now left].
  right. eexists. split; [|reflexivity]. unfold chunkOk.
  rewrite slice_prefix_length.
  pose proof (chunkSizeFor_pos (String.length (textQueueRef r))).
  pose proof (chunkSizeFor_le_50 (String.length (textQueueRef r))). lia.
Qed.

Lemma frame_insertions (r : Refs) :
  insertions (frame r) = insertions r
  \/ exists chunk, chunkOk chunk
                   /\ insertions (frame r) = (insertions r ++ [chunk])%list.
Proof.
  unfold frame. destruct (pendingFrames r) as [|n]; [now left|].
  exact (processQueue_insertions (setFrames n r)).
Qed.

Lemma enqueue_insertions (fragment : string) (r : Refs) :
  insertions (enqueue fragment r) = insertions r
  \/ exists chunk, chunkOk chunk
                   /\ insertions (enqueue fragment r) = (insertions r ++ [chunk])%list.
Proof.
  unfold enqueue. simpl. destruct (viewRef r); [|now left].
  unfold triggerProcessing. simpl. destruct (isProcessingQueue r); simpl; [now left|].
  match goal with |- context [processQueue ?r1] => exact (processQueue_insertions r1) end.
Qed.

Lemma processQueue_length_bounds (r : Refs) :
  String.length (textQueueRef r) <= String.length (textQueueRef (processQueue r)) + 50.
Proof.
  unfold processQueue. destruct (viewRef r) as [view|]; [|lia].
  destruct (Nat.ltb_spec 0 (String.length (textQueueRef r))) as [Hpos | Hzero];
    simpl; [|lia].
  rewrite sliceFrom_length.
  pose proof (chunkSizeFor_le_50 (String.length (textQueueRef r))). lia.
Qed.

Lemma frames_lower_bound (n : nat) :
  forall r, String.length (textQueueRef r)
            <= String.length (textQueueRef (frames n r)) + 50 * n.
Proof.
  induction n as [|n IH]; intros r; simpl; [lia|].
  specialize (IH (frame r)).
  assert (String.length (textQueueRef r) <= String.length (textQueueRef (frame r)) + 50).
  { unfold frame. destruct (pendingFrames r) as [|m]; [lia|].
    exact (processQueue_length_bounds (setFrames m r)). }
  lia.
Qed.

Lemma frames_quiesce_fast (n : nat) :
  forall r, loopInv r ->
  String.length (textQueueRef r) + (if isProcessingQueue r then 2 else 0) <= 2 * n ->
  textQueueRef (frames n r) = ""
  /\ isProcessingQueue (frames n r) = false
  /\ pendingFrames (frames n r) = 0.
Proof.
  induction n as [|n IH]; intros r Hinv Hm.
  - destruct Hinv as (Hv & Hf & Hq). simpl.
    destruct (isProcessingQueue r) eqn:Ep; [lia|].
    repeat split; auto.
  - simpl. apply IH; [now apply loopInv_frame|].
    destruct Hinv as (Hv & Hf & Hq). unfold frame.
    destruct (isProcessingQueue r) eqn:Ep; rewrite Hf.
    + destruct (viewRef r) as [view|] eqn:Ev; [|congruence].
      destruct (Nat.ltb_spec 0 (String.length (textQueueRef r))) as [Hpos | Hzero].
      * rewrite (processQueue_nonempty (setFrames 0 r) view Ev Hpos). simpl.
        rewrite Ep, sliceFrom_length.
        pose proof (chunkSizeFor_pos (String.length (textQueueRef r))). lia.
      * assert (Hq' : textQueueRef r = "") by (apply length_zero_empty; lia).
        rewrite (processQueue_empty (setFrames 0 r) view Ev Hq'). simpl.
        rewrite Hq'. simpl. lia.
    + rewrite Ep, (Hq eq_refl). simpl. lia.
Qed.

(** Property X9.  In every state the component reaches, with a backlog of [L] characters
    and no further fragment: [n] frames remove at most [50 * n] characters,
    and the buffer is empty and the loop stopped as soon as
    [L + 2 <= 2 * n]. *)
Theorem drain_frame_bounds (evs : list Event) (n : nat) :
  let r := refs (run mountEditor evs) in
  let L := String.length (textQueueRef r) in
  L <= String.length (textQueueRef (frames n r)) + 50 * n
  /\ (L + 2 <= 2 * n ->
      textQueueRef (frames n r) = ""
      /\ isProcessingQueue (frames n r) = false
      /\ pendingFrames (frames n r) = 0).
Proof.
  intros r L. split; [apply frames_lower_bound|].
  intros Hn. apply frames_quiesce_fast.
  - apply (editorInv_reachable evs).
  - fold L. destruct (isProcessingQueue r); lia.
Qed.

End Pacing.

(** ** Further properties of the component *)

Section Insertions.

Local Open Scope string_scope.

Lemma clearEditor_insertions (c : Editor) :
  insertions (refs (clearEditor c)) = insertions (refs c).
Proof. unfold clearEditor. destruct (viewRef (refs c)); reflexivity. Qed.

Lemma send_insertions (e : MachineEvent) (c : Editor) :
  insertions (refs (send e c)) = insertions (refs c).
Proof. apply send_text. Qed.

Lemma handleStartGeneration_insertions (c : Editor) :
  insertions (refs (handleStartGeneration c)) = insertions (refs c).
Proof.
  unfold handleStartGeneration. destruct (viewRef (refs c)); [|reflexivity].
  rewrite send_insertions. destruct (isExpanded c); simpl; [reflexivity|].
  apply clearEditor_insertions.
Qed.

Lemma handleNewChat_insertions (c : Editor) :
  insertions (refs (handleNewChat c)) = insertions (refs c).
Proof.
  unfold handleNewChat. simpl. rewrite clearEditor_insertions.
  destruct (Status_eqb (status (state c)) generating);
    [apply send_insertions | reflexivity].
Qed.

Lemma step_insertions (c : Editor) (e : Event) :
  insertions (refs (step c e)) = insertions (refs c)
  \/ exists chunk, chunkOk chunk
                   /\ insertions (refs (step c e)) = (insertions (refs c) ++ [chunk])%list.
Proof.
  destruct e as [| | |text| |k chunk|k|k message]; simpl.
  - left. unfold clickAction. destruct (Status_eqb (status (state c)) generating);
      [apply send_insertions | apply handleStartGeneration_insertions].
  - left. unfold onKeyDownEnter. destruct (Js.truthy (Js.trim (promptText c)));
      [apply handleStartGeneration_insertions | reflexivity].
  - left. apply handleNewChat_insertions.
  - now left.
  - apply frame_insertions.
  - destruct (issued k c); [|now left]. unfold onFragment.
    destruct (isActive k c); simpl; [apply enqueue_insertions | now left].
  - left. destruct (issued k c); [|reflexivity]. unfold onResolve.
    destruct (isActive k c); [apply send_insertions | reflexivity].
  - left. destruct (issued k c); [|reflexivity]. unfold onReject.
    destruct (isActive k c); [apply send_insertions | reflexivity].
Qed.

Lemma run_insertions_ok (evs : list Event) :
  forall c, Forall chunkOk (insertions (refs c)) ->
            Forall chunkOk (insertions (refs (run c evs))).
Proof.
  induction evs as [|e evs IH]; intros c H; simpl; [assumption|].
  apply IH. destruct (step_insertions c e) as [E | (chunk & Hok & E)]; rewrite E.
  - assumption.
  - apply Forall_app. split; [assumption | now constructor].
Qed.

(** Property X3.  Whatever the user, the browser and the producer do, every text the
    component inserts into the document is between 1 and 50 characters
    long, each event causes at most one insertion, and none is taken
    back. *)
Theorem inserted_chunks_bounded (evs : list Event) (e : Event) :
  let c := run mountEditor evs in
  Forall chunkOk (insertions (refs c))
  /\ (insertions (refs (step c e)) = insertions (refs c)
      \/ exists chunk, chunkOk chunk
                       /\ insertions (refs (step c e))
                          = (insertions (refs c) ++ [chunk])%list).
Proof.
  intros c. split; [|apply step_insertions].
  apply run_insertions_ok. simpl. constructor.
Qed.

End Insertions.

Section Sessions.

Local Open Scope string_scope.

(** *** A session that has ended and whose buffer is empty stays silent *)

Lemma setRefs_same (c : Editor) : setRefs (refs c) c = c.
Proof. destruct c; reflexivity. Qed.

Lemma quiet_step (c : Editor) (e : Event) :
  editorInv c ->
  status (state c) <> generating ->
  textQueueRef (refs c) = "" ->
  background e = true ->
  state (step c e) = state c
  /\ insertions (refs (step c e)) = insertions (refs c)
  /\ viewRef (refs (step c e)) = viewRef (refs c)
  /\ textQueueRef (refs (step c e)) = "".
Proof.
  intros Hinv Hs Hq Hb.
  destruct e as [| | |text| |k chunk|k|k message]; try discriminate.
  - simpl. unfold frame. destruct (pendingFrames (refs c)) as [|n]; [now repeat split|].
    unfold processQueue. simpl.
    destruct (viewRef (refs c)) eqn:Ev; simpl; [|rewrite Ev; now repeat split].
    rewrite Hq. simpl. now repeat split.
  - rewrite (stale_fragment c k chunk Hinv (or_introl Hs)). now repeat split.
  - destruct (stale_settle c k None Hinv (or_introl Hs)) as (E & _). rewrite E.
    now repeat split.
  - destruct (stale_settle c k message Hinv (or_introl Hs)) as (_ & E). rewrite E.
    now repeat split.
Qed.

Lemma quiet_run (bg : list Event) :
  forall c,
  editorInv c ->
  status (state c) <> generating ->
  textQueueRef (refs c) = "" ->
  forallb background bg = true ->
  state (run c bg) = state c
  /\ insertions (refs (run c bg)) = insertions (refs c)
  /\ viewRef (refs (run c bg)) = viewRef (refs c)
  /\ textQueueRef (refs (run c bg)) = "".
Proof.
  induction bg as [|e bg IH]; intros c Hinv Hs Hq Hb; simpl; [now repeat split|].
  simpl in Hb. apply andb_true_iff in Hb as [He Hb].
  destruct (quiet_step c e Hinv Hs Hq He) as (E1 & E2 & E3 & E4).
  destruct (IH (step c e)) as (F1 & F2 & F3 & F4); try assumption.
  - now apply editorInv_step.
  - now rewrite E1.
  - repeat split; congruence.
Qed.

Lemma transition_cancel (s : Session) : status (transition s CANCEL) <> generating.
Proof. unfold transition. destruct (status s) eqn:E; simpl; rewrite ?E; discriminate. Qed.

Lemma handleNewChat_fields (c : Editor) :
  textQueueRef (refs (handleNewChat c)) = ""
  /\ promptText (handleNewChat c) = ""
  /\ isExpanded (handleNewChat c) = false
  /\ status (state (handleNewChat c)) <> generating
  /\ (viewRef (refs c) <> None ->
      viewRef (refs (handleNewChat c)) = Some (mkView "" "")).
Proof.
  unfold handleNewChat. pose proof (cancel_first_not_generating c) as Hs.
  assert (Hv : viewRef (refs c) <> None ->
               viewRef (refs (if Status_eqb (status (state c)) generating
                              then send CANCEL c else c)) <> None).
  { intros H. destruct (Status_eqb (status (state c)) generating); [|assumption].
    rewrite (proj1 (send_refs_other CANCEL c (transition_cancel (state c)))).
    assumption. }
  set (c1 := if Status_eqb (status (state c)) generating then send CANCEL c else c) in *.
  simpl. destruct (clearEditor_state c1) as (Est & _). rewrite Est.
  repeat split; try assumption.
  intros H. specialize (Hv H). unfold clearEditor.
  destruct (viewRef (refs c1)); [reflexivity | congruence].
Qed.

(** Property X1.  New Chat, in any state the component reaches, leaves an empty document,
    an empty buffer, an empty prompt and a collapsed card, with no
    generation running; whatever the browser and the producer do afterwards
    (frames, late fragments, late completions or failures), nothing is
    inserted and the document and the session stay as they are. *)
Theorem new_chat_resets (evs bg : list Event) :
  let c := step (run mountEditor evs) NewChat in
  forallb background bg = true ->
  (docBefore (refs c) = "" /\ docAfter (refs c) = "" /\ textQueueRef (refs c) = ""
   /\ promptText c = "" /\ isExpanded c = false /\ status (state c) <> generating)
  /\ insertions (refs (run c bg)) = insertions (refs c)
  /\ viewRef (refs (run c bg)) = viewRef (refs c)
  /\ state (run c bg) = state c.
Proof.
  intros c Hb.
  assert (Hinv0 : editorInv (run mountEditor evs)) by apply editorInv_reachable.
  assert (Hinv : editorInv c) by (unfold c; now apply editorInv_step).
  destruct (handleNewChat_fields (run mountEditor evs)) as (Hq & Hp & He & Hs & Hv).
  specialize (Hv (proj1 (proj1 Hinv0))).
  change (handleNewChat (run mountEditor evs)) with c in *.
  split.
  - unfold docBefore, docAfter. rewrite Hv. now repeat split.
  - destruct (quiet_run bg c Hinv Hs Hq Hb) as (E1 & E2 & E3 & _). now repeat split.
Qed.

Lemma new_chat_resets_witness :
  let c := step (run mountEditor [ClickAction; Fragment 1 "Hello world"]) NewChat in
  let bg := [Frame; Fragment 1 "late"; Resolve 1; Frame]%list in
  insertions (refs (run c bg)) = ["Hell"]%list
  /\ viewRef (refs (run c bg)) = Some (mkView "" "")
  /\ status (state (run c bg)) = cancelled.
Proof.
  intros c bg.
  destruct (new_chat_resets [ClickAction; Fragment 1 "Hello world"] bg eq_refl)
    as (_ & Hi & Hv & Hs).
  split; [exact Hi|]. split; [exact Hv|]. unfold c. rewrite Hs. reflexivity.
Defined.

(** Property X2.  New Chat twice is New Chat once. *)
Theorem new_chat_idempotent (c : Editor) :
  handleNewChat (handleNewChat c) = handleNewChat c.
Proof.
  destruct (handleNewChat_fields c) as (_ & _ & _ & Hs & _).
  assert (Hn : Status_eqb (status (state (handleNewChat c))) generating = false).
  { destruct (Status_eqb _ generating) eqn:E; [|reflexivity].
    apply Status_eqb_eq in E. congruence. }
  unfold handleNewChat at 1. rewrite Hn. unfold handleNewChat.
  destruct (if Status_eqb (status (state c)) generating then send CANCEL c else c)
    as [[[view|] q p f i] s ex pt fl calls]; reflexivity.
Qed.

End Sessions.

Section Generations.

Local Open Scope string_scope.

(** *** The live producer call *)

Lemma liveInv_fields (c c' : Editor) :
  state c' = state c ->
  activeFlags c' = activeFlags c ->
  producerCalls c' = producerCalls c ->
  liveInv c -> liveInv c'.
Proof.
  unfold liveInv, issued, isActive. intros Es Ef Ec H. rewrite Es, Ef, Ec. exact H.
Qed.

Lemma liveInv_rerunEffect (c : Editor) :
  viewRef (refs c) <> None -> liveInv (rerunEffect c).
Proof.
  intros Hv. destruct (viewRef (refs c)) as [view|] eqn:Ev; [|congruence].
  assert (Hgen : {status (state c) = generating} + {status (state c) <> generating})
    by (destruct (status (state c)); (now left) || (right; discriminate)).
  destruct Hgen as [Hs | Hs].
  - rewrite (rerunEffect_generating c view Hs Ev). intros _.
    unfold issued, isActive. simpl. rewrite rerun_flags_length. simpl.
    rewrite Nat.sub_0_r. split.
    + rewrite existsb_app. simpl. now rewrite Nat.eqb_refl, orb_true_r.
    + rewrite app_nth2 by (rewrite deactivate_length; lia).
      now rewrite deactivate_length, Nat.sub_diag.
  - rewrite (rerunEffect_other c Hs). intros Hs'. simpl in Hs'. contradiction.
Qed.

Lemma liveInv_send (e : MachineEvent) (c : Editor) :
  editorInv c -> liveInv c -> liveInv (send e c).
Proof.
  intros Hinv H. unfold send.
  destruct (depsChanged (state c) (transition (state c) e)) eqn:Ed.
  - apply liveInv_rerunEffect. simpl. apply Hinv.
  - apply depsChanged_false_status in Ed. intros Hs. simpl in Hs.
    rewrite <- Ed in Hs. exact (H Hs).
Qed.

Lemma liveInv_handleStartGeneration (c : Editor) :
  editorInv c -> liveInv c -> liveInv (handleStartGeneration c).
Proof.
  intros Hinv H. unfold handleStartGeneration.
  destruct (viewRef (refs c)); [|assumption].
  destruct (isExpanded c); simpl.
  - now apply liveInv_send.
  - destruct (clearEditor_state c) as (Es & Ef & Ec & _).
    apply liveInv_send.
    + apply editorInv_expanded; [reflexivity | now apply editorInv_clearEditor].
    + now apply (liveInv_fields c).
Qed.

Lemma liveInv_step (c : Editor) (e : Event) :
  editorInv c -> liveInv c -> liveInv (step c e).
Proof.
  intros Hinv H. destruct e as [| | |text| |k chunk|k|k message]; simpl.
  - unfold clickAction. destruct (Status_eqb (status (state c)) generating).
    + now apply liveInv_send.
    + now apply liveInv_handleStartGeneration.
  - unfold onKeyDownEnter. destruct (Js.truthy (Js.trim (promptText c))).
    + now apply liveInv_handleStartGeneration.
    + assumption.
  - destruct (handleNewChat_fields c) as (_ & _ & _ & Hs & _).
    intros Hs'. contradiction.
  - exact H.
  - exact H.
  - destruct (issued k c); [|assumption]. unfold onFragment.
    destruct (isActive k c); simpl; exact H.
  - destruct (issued k c); [|assumption]. unfold onResolve.
    destruct (isActive k c); [now apply liveInv_send | assumption].
  - destruct (issued k c); [|assumption]. unfold onReject.
    destruct (isActive k c); [now apply liveInv_send | assumption].
Qed.

Lemma liveInv_reachable (evs : list Event) : liveInv (run mountEditor evs).
Proof.
  assert (H : forall c, editorInv c -> liveInv c -> liveInv (run c evs)).
  { induction evs as [|e evs IH]; intros c Hinv H; simpl; [assumption|].
    apply IH; [now apply editorInv_step | now apply liveInv_step]. }
  apply H; [apply editorInv_mount|].
  apply liveInv_rerunEffect. simpl. discriminate.
Qed.

(** Property X4.  In every state the component reaches: while a generation runs, one
    producer call is live (its callback passes) and the result card is
    shown; there is never a second live call; when no generation runs, no
    call is live; and each call was made by an effect instance of its
    own. *)
Theorem single_live_producer (evs : list Event) :
  let c := run mountEditor evs in
  (status (state c) = generating ->
     isExpanded c = true
     /\ exists k, issued k c = true /\ isActive k c = true)
  /\ (forall k1 k2,
        issued k1 c = true -> isActive k1 c = true ->
        issued k2 c = true -> isActive k2 c = true -> k1 = k2)
  /\ (forall k, issued k c = true -> isActive k c = true ->
                status (state c) = generating)
  /\ NoDup (map callId (producerCalls c)).
Proof.
  intros c.
  assert (Hinv : editorInv c) by apply editorInv_reachable.
  assert (Hlive : liveInv c) by apply liveInv_reachable.
  split; [|split; [|split]].
  - intros Hs. split; [now apply Hinv|].
    exists (length (activeFlags c) - 1). exact (Hlive Hs).
  - intros k1 k2 Hi1 Ha1 Hi2 Ha2.
    destruct (active_generating c k1 Hinv Hi1 Ha1) as (_ & E1).
    destruct (active_generating c k2 Hinv Hi2 Ha2) as (_ & E2). lia.
  - intros k Hi Ha. now destruct (active_generating c k Hinv Hi Ha).
  - apply Hinv.
Qed.

End Generations.

Section Streaming.

Local Open Scope string_scope.

(** *** The document while text streams in *)

Lemma processQueue_doc (r : Refs) :
  docBefore (processQueue r) ++ textQueueRef (processQueue r)
  = docBefore r ++ textQueueRef r
  /\ docAfter (processQueue r) = docAfter r.
Proof.
  unfold processQueue, docBefore, docAfter.
  destruct (viewRef r) as [view|] eqn:Ev; [|now rewrite Ev].
  destruct (Nat.ltb_spec 0 (String.length (textQueueRef r))) as [Hpos | Hzero]; simpl.
  - now rewrite append_assoc, slice_split.
  - now rewrite Ev.
Qed.

Lemma frame_doc (r : Refs) :
  docBefore (frame r) ++ textQueueRef (frame r) = docBefore r ++ textQueueRef r
  /\ docAfter (frame r) = docAfter r.
Proof.
  unfold frame. destruct (pendingFrames r) as [|n]; [now split|].
  exact (processQueue_doc (setFrames n r)).
Qed.

Lemma enqueue_doc (fragment : string) (r : Refs) :
  docBefore (enqueue fragment r) ++ textQueueRef (enqueue fragment r)
  = (docBefore r ++ textQueueRef r) ++ fragment
  /\ docAfter (enqueue fragment r) = docAfter r.
Proof.
  unfold enqueue. simpl. destruct (viewRef r) as [view|] eqn:Ev.
  - unfold triggerProcessing. simpl. destruct (isProcessingQueue r); simpl.
    + unfold docBefore, docAfter. simpl. rewrite Ev. now rewrite append_assoc.
    + match goal with |- context [processQueue ?r1] =>
        destruct (processQueue_doc r1) as (E1 & E2) end.
      rewrite E1, E2. unfold docBefore, docAfter. simpl. rewrite Ev.
      now rewrite append_assoc.
  - unfold docBefore, docAfter. simpl. rewrite Ev. split; reflexivity.
Qed.

Lemma accepted_ext (c1 c2 : Editor) (evs : list Event) :
  activeFlags c1 = activeFlags c2 ->
  producerCalls c1 = producerCalls c2 ->
  accepted c1 evs = accepted c2 evs.
Proof.
  intros Ef Ec. induction evs as [|e evs IH]; simpl; [reflexivity|].
  destruct e; try exact IH.
  unfold issued, isActive. now rewrite Ef, Ec, IH.
Qed.

Lemma streaming_step (c : Editor) (e : Event) :
  streaming e = true ->
  (state (step c e) = state c
   /\ activeFlags (step c e) = activeFlags c
   /\ producerCalls (step c e) = producerCalls c)
  /\ docBefore (refs (step c e)) ++ textQueueRef (refs (step c e))
     = (docBefore (refs c) ++ textQueueRef (refs c)) ++ Js.concat (accepted c [e])
  /\ rendered (refs (step c e)) ++ textQueueRef (refs (step c e))
     = (rendered (refs c) ++ textQueueRef (refs c)) ++ Js.concat (accepted c [e])
  /\ docAfter (refs (step c e)) = docAfter (refs c).
Proof.
  intros Hs. destruct e as [| | |text| |k chunk|k|k message]; try discriminate; simpl.
  - destruct (frame_doc (refs c)) as (E1 & E2).
    rewrite E1, E2, frame_conserves, !append_empty_r. now repeat split.
  - destruct (issued k c); simpl; [|rewrite !append_empty_r; now repeat split].
    unfold onFragment. destruct (isActive k c); simpl;
      [|rewrite !append_empty_r; now repeat split].
    destruct (enqueue_doc chunk (refs c)) as (E1 & E2).
    rewrite E1, E2, enqueue_conserves, !append_empty_r. now repeat split.
Qed.

(** Property X5.  While only frames and fragment deliveries happen, from any state of
    the component: the text of the document before the cursor followed by
    the buffer grows by exactly the fragments the callbacks let through, in
    their order; so do the inserted texts followed by the buffer; the text
    after the cursor and the session do not change. *)
Theorem streaming_conserves_text (c : Editor) (bg : list Event) :
  forallb streaming bg = true ->
  let c' := run c bg in
  docBefore (refs c') ++ textQueueRef (refs c')
  = (docBefore (refs c) ++ textQueueRef (refs c)) ++ Js.concat (accepted c bg)
  /\ rendered (refs c') ++ textQueueRef (refs c')
     = (rendered (refs c) ++ textQueueRef (refs c)) ++ Js.concat (accepted c bg)
  /\ docAfter (refs c') = docAfter (refs c)
  /\ state c' = state c.
Proof.
  revert c. induction bg as [|e bg IH]; intros c Hb; cbv zeta.
  - simpl. rewrite !append_empty_r. now repeat split.
  - simpl in Hb. apply andb_true_iff in Hb as [He Hb].
    change (run c (e :: bg)) with (run (step c e) bg).
    destruct (streaming_step c e He) as ((Es & Ef & Ec) & Hd & Hr & Ha).
    destruct (IH (step c e) Hb) as (Id & Ir & Ia & Is).
    rewrite (accepted_ext (step c e) c bg Ef Ec) in Id, Ir.
    assert (Hacc : Js.concat (accepted c (e :: bg))
                   = Js.concat (accepted c [e]) ++ Js.concat (accepted c bg)).
    { simpl. destruct e; try reflexivity.
      destruct (issued k c && isActive k c); simpl; [|reflexivity].
      now rewrite append_empty_r. }
    rewrite Id, Ir, Ia, Is, Hd, Hr, Ha, Es, Hacc.
    rewrite !append_assoc. now repeat split.
Qed.

Lemma streaming_conserves_text_witness :
  let c := run mountEditor [ClickAction] in
  let bg := [Fragment 1 "Hello"; Frame; Fragment 1 " world";
             Frame; Frame; Frame; Frame; Frame]%list in
  docBefore (refs (run c bg)) ++ textQueueRef (refs (run c bg)) = "Hello world"
  /\ textQueueRef (refs (run c bg)) = ""
  /\ isProcessingQueue (refs (run c bg)) = false.
Proof.
  intros c bg. split; [|split; reflexivity].
  exact (proj1 (streaming_conserves_text c bg eq_refl)).
Defined.

End Streaming.

Section Endings.

Local Open Scope string_scope.

(** Property X6.  When the live producer call resolves, the session becomes [success] at
    once, also while text is still buffered: the refs are left as they are,
    later deliveries of that call are discarded, and the buffered text goes
    on being inserted until the buffer is empty. *)
Theorem completion_keeps_draining (evs : list Event) (k : nat) :
  let c := run mountEditor evs in
  issued k c = true ->
  isActive k c = true ->
  let c' := step c (Resolve k) in
  status (state c') = success
  /\ refs c' = refs c
  /\ (forall j chunk, step c' (Fragment j chunk) = c')
  /\ (forall n, String.length (textQueueRef (refs c)) < n ->
        rendered (frames n (refs c')) = rendered (refs c) ++ textQueueRef (refs c)
        /\ textQueueRef (frames n (refs c')) = "").
Proof.
  intros c Hk Ha c'.
  assert (Hinv : editorInv c) by apply editorInv_reachable.
  destruct (active_generating c k Hinv Hk Ha) as (Hs & _).
  assert (Hc' : c' = send GENERATION_COMPLETE c)
    by (unfold c'; simpl; rewrite Hk; unfold onResolve; now rewrite Ha).
  assert (Ht : transition (state c) GENERATION_COMPLETE
               = mkSession success (request (state c)) (errorMessage (state c)))
    by (unfold transition; now rewrite Hs).
  assert (Hst : status (state c') = success).
  { rewrite Hc'. destruct (send_text GENERATION_COMPLETE c) as (_ & _ & _ & _ & _ & _ & E).
    now rewrite E, Ht. }
  assert (Hrefs : refs c' = refs c).
  { rewrite Hc'. apply send_refs_other. rewrite Ht. discriminate. }
  split; [exact Hst|]. split; [exact Hrefs|]. split.
  - intros j chunk. apply stale_fragment.
    + unfold c'. now apply editorInv_step.
    + left. rewrite Hst. discriminate.
  - intros n Hn. rewrite Hrefs.
    destruct (frames_quiesce n (refs c)) as (Hq & _ & _).
    + apply Hinv.
    + destruct (isProcessingQueue (refs c)); lia.
    + split; [|exact Hq].
      pose proof (frames_conserve n (refs c)) as Hcons.
      now rewrite Hq, append_empty_r in Hcons.
Qed.

Lemma completion_keeps_draining_witness :
  let c := run mountEditor [ClickAction; Fragment 1 "Hello"; Fragment 1 " world"] in
  let c' := step c (Resolve 1) in
  status (state c') = success
  /\ textQueueRef (refs c') = "llo world"
  /\ rendered (frames 10 (refs c')) = "Hello world".
Proof.
  intros c c'.
  destruct (completion_keeps_draining
              [ClickAction; Fragment 1 "Hello"; Fragment 1 " world"] 1 eq_refl eq_refl)
    as (Hs & _ & _ & Hdrain).
  split; [exact Hs|]. split; [reflexivity|].
  apply (Hdrain 10). vm_compute. lia.
Defined.

(** *** After the component has unmounted *)

Lemma unmounted_step (u : Editor) (e : Event) :
  pendingFrames (refs u) = 0 ->
  (forall k, isActive k u = false) ->
  background e = true ->
  step u e = u.
Proof.
  intros Hf Ha Hb. destruct e as [| | |text| |k chunk|k|k message]; try discriminate; simpl.
  - unfold frame. rewrite Hf. apply setRefs_same.
  - destruct (issued k u); [|reflexivity]. unfold onFragment. now rewrite Ha.
  - destruct (issued k u); [|reflexivity]. unfold onResolve. now rewrite Ha.
  - destruct (issued k u); [|reflexivity]. unfold onReject. now rewrite Ha.
Qed.

Lemma unmount_inactive (c : Editor) (k : nat) :
  flagsInv c -> isActive k (unmount c) = false.
Proof.
  intros Hflags. unfold isActive, unmount. simpl. rewrite nth_deactivate.
  destruct (Nat.eqb_spec k (length (activeFlags c) - 1)) as [E | E]; [reflexivity|].
  destruct (Nat.lt_ge_cases k (length (activeFlags c))) as [Hlt | Hge].
  - apply Hflags. lia.
  - now apply nth_overflow.
Qed.

(** Property X10.  Once the component has unmounted, in whatever state, nothing the
    browser or the producer does changes it: no frame runs, no fragment is
    enqueued or inserted, and no completion or failure is sent to the
    machine. *)
Theorem unmount_silences (evs bg : list Event) :
  forallb background bg = true ->
  run (unmount (run mountEditor evs)) bg = unmount (run mountEditor evs).
Proof.
  intros Hb.
  assert (Hinv : editorInv (run mountEditor evs)) by apply editorInv_reachable.
  set (c := run mountEditor evs) in *.
  assert (Hf : pendingFrames (refs (unmount c)) = 0).
  { simpl. destruct Hinv as ((_ & Hf & _) & _). rewrite Hf.
    now destruct (isProcessingQueue (refs c)). }
  assert (Ha : forall k, isActive k (unmount c) = false)
    by (intros k; apply unmount_inactive, Hinv).
  induction bg as [|e bg IH]; simpl; [reflexivity|].
  simpl in Hb. apply andb_true_iff in Hb as [He Hb].
  rewrite (unmounted_step _ e Hf Ha He). now apply IH.
Qed.

Lemma unmount_silences_witness :
  let c := run mountEditor [ClickAction; Fragment 1 "Hello world"] in
  let bg := [Frame; Fragment 1 "more"; Frame; Resolve 1]%list in
  insertions (refs (run (unmount c) bg)) = ["Hell"]%list
  /\ status (state (run (unmount c) bg)) = generating
  /\ insertions (refs (run c bg)) = ["Hell"; "o "; "wo"]%list.
Proof.
  intros c bg. unfold c.
  rewrite (unmount_silences [ClickAction; Fragment 1 "Hello world"] bg eq_refl).
  repeat split.
Defined.

End Endings.
